(** * queuectl: a persistent job queue with retrying workers

    A shallow embedding of the job model (queuectl/models.py), of the
    worker (queuectl/worker.py) and of the queue commands of the command
    line (queuectl/cli.py), with the properties of the claim protocol, of
    the retry policy and of the dead-letter queue.

    Modelling conventions.
    - Python integers are unbounded: [Z].
    - A [datetime] is the number of microseconds since 0001-01-01
      00:00:00, the smallest date of Python, and the largest one is
      9999-12-31 23:59:59.999999; a [timedelta] is a number of
      microseconds of at most 999999999 days.  Beyond these ranges
      [timedelta] and the addition raise [OverflowError], as in CPython.
    - The [jobs] table is the list of its rows.  The unit of work of the
      ORM writes an object back under its primary key ([flush]).
    - Every call of [datetime.utcnow()] is an argument of the function
      that makes it.
    - The database is SQLite ([init_db]).  An integer handed to a
      statement must fit 64 bits, or the statement raises
      [OverflowError]; a query with [ORDER BY] returns the rows of equal
      key in the order of the key of the table, the column [id].  Other
      failures of the store (a locked or missing file) are not part of the
      model.
    - What a shell command does is an argument, [ProcessRun]. *)

From Stdlib Require Import ZArith Ascii String.
From stdpp Require Import base list strings pretty relations sorting.
Open Scope Z_scope.

(** ** Python values *)

(** [x or y] on an optional integer: [None] and [0] are falsy. *)
Definition py_or (x : option Z) (y : Z) : Z :=
  match x with
  | Some v => if decide (v = 0) then y else v
  | None => y
  end.

(** The exceptions the embedded code meets, all of them subclasses of
    [Exception]; [OtherException] stands for any other subclass and
    carries its [str()]. *)
Inductive exn :=
  | TimeoutExpired (cmd : string) (timeout : Z)
  | NameError (name : string)
  | OverflowError (msg : string)
  | ClickException (msg : string)
  | UsageError (msg : string)
  | OtherException (msg : string).

Definition str_exn (e : exn) : string :=
  match e with
  | TimeoutExpired cmd timeout =>
      "Command '" +:+ cmd +:+ "' timed out after " +:+ pretty timeout +:+ " seconds"
  | NameError name => "name '" +:+ name +:+ "' is not defined"
  | OverflowError msg | ClickException msg | UsageError msg
  | OtherException msg => msg
  end.

Definition datetime : Type := Z.

(** [datetime.min] and [datetime.max] *)
Definition datetime_min : datetime := 0.

Definition datetime_max : datetime := 315537897599999999.

(** [n] seconds, in microseconds. *)
Definition seconds (n : Z) : Z := n * 1000000.

(** [timedelta(seconds=n)] for an integer [n].  The days of the result
    are [n // 86400]; CPython raises [OverflowError] when they exceed
    999999999 in magnitude, with another message when they do not fit a C
    int. *)
Definition timedelta (n : Z) : exn + Z :=
  let days := n `div` 86400 in
  if decide (-999999999 ≤ days ≤ 999999999) then inr (seconds n)
  else if decide (-2147483648 ≤ days ≤ 2147483647) then
    inl (OverflowError ("days=" +:+ pretty days +:+
                        "; must have magnitude <= 999999999"))
  else inl (OverflowError "Python int too large to convert to C int").

(** [t + delta] for a datetime [t] and a timedelta [delta]. *)
Definition datetime_add (t : datetime) (delta : Z) : exn + datetime :=
  if decide (datetime_min ≤ t + delta ≤ datetime_max) then inr (t + delta)
  else inl (OverflowError "date value out of range").

(** The integers SQLite stores and takes as parameters of a statement. *)
Definition int64 (n : Z) : Prop :=
  -9223372036854775808 ≤ n ≤ 9223372036854775807.

Global Instance int64_dec n : Decision (int64 n).
Proof. unfold int64. apply _. Defined.

Definition newline : string := String "010"%char "".

(** ** models.py *)

Module models.

Inductive JobStatus := PENDING | PROCESSING | COMPLETED | FAILED | DEAD.

Record Job := {
  id : Z;
  command : string;
  status : JobStatus;
  created_at : datetime;
  started_at : option datetime;
  completed_at : option datetime;
  attempts : Z;
  max_attempts : Z;
  error : option string;
  backoff_base : Z;
  next_retry_at : option datetime
}.

End models.
Import models.

Global Instance JobStatus_eq_dec : EqDecision JobStatus.
Proof. solve_decision. Defined.

Global Instance Job_eq_dec : EqDecision Job.
Proof. solve_decision. Defined.

(** Attribute assignment, [job.field = v]. *)
Definition set_status (v : JobStatus) (j : Job) : Job :=
  {| id := id j; command := command j; status := v;
     created_at := created_at j; started_at := started_at j;
     completed_at := completed_at j; attempts := attempts j;
     max_attempts := max_attempts j; error := error j;
     backoff_base := backoff_base j; next_retry_at := next_retry_at j |}.

Definition set_started_at (v : option datetime) (j : Job) : Job :=
  {| id := id j; command := command j; status := status j;
     created_at := created_at j; started_at := v;
     completed_at := completed_at j; attempts := attempts j;
     max_attempts := max_attempts j; error := error j;
     backoff_base := backoff_base j; next_retry_at := next_retry_at j |}.

Definition set_completed_at (v : option datetime) (j : Job) : Job :=
  {| id := id j; command := command j; status := status j;
     created_at := created_at j; started_at := started_at j;
     completed_at := v; attempts := attempts j;
     max_attempts := max_attempts j; error := error j;
     backoff_base := backoff_base j; next_retry_at := next_retry_at j |}.

Definition set_attempts (v : Z) (j : Job) : Job :=
  {| id := id j; command := command j; status := status j;
     created_at := created_at j; started_at := started_at j;
     completed_at := completed_at j; attempts := v;
     max_attempts := max_attempts j; error := error j;
     backoff_base := backoff_base j; next_retry_at := next_retry_at j |}.

Definition set_error (v : option string) (j : Job) : Job :=
  {| id := id j; command := command j; status := status j;
     created_at := created_at j; started_at := started_at j;
     completed_at := completed_at j; attempts := attempts j;
     max_attempts := max_attempts j; error := v;
     backoff_base := backoff_base j; next_retry_at := next_retry_at j |}.

Definition set_next_retry_at (v : option datetime) (j : Job) : Job :=
  {| id := id j; command := command j; status := status j;
     created_at := created_at j; started_at := started_at j;
     completed_at := completed_at j; attempts := attempts j;
     max_attempts := max_attempts j; error := error j;
     backoff_base := backoff_base j; next_retry_at := v |}.

(** [Job(command=..., max_attempts=..., backoff_base=...)] as the table
    stores it: the columns the constructor is not given take the defaults
    of the model ([status] PENDING, [attempts] 0, [created_at] the clock
    at the insert, the others NULL) and [id] is the key of the new row. *)
Definition new_job (id : Z) (command : string) (max_attempts backoff_base : Z)
    (now : datetime) : Job :=
  {| models.id := id;
     models.command := command;
     status := PENDING;
     created_at := now;
     started_at := None;
     completed_at := None;
     attempts := 0;
     models.max_attempts := max_attempts;
     error := None;
     models.backoff_base := backoff_base;
     next_retry_at := None |}.

(** ** The session *)

(** The primary key the table gives a new row: one more than the largest
    key in use, 1 in an empty table. *)
Definition next_id (table : list Job) : Z :=
  foldr (λ j m, Z.max (id j) m) 0 table + 1.

(** [session.add(job); session.commit()] for a new object: the column
    defaults of [Job] are filled in by the caller, the key by the table. *)
Definition insert_row (row : Z → Job) (table : list Job) : list Job :=
  table ++ [row (next_id table)].

(** [session.commit()] with one modified object: its row is rewritten. *)
Definition flush (obj : Job) (table : list Job) : list Job :=
  (λ row, if decide (id row = id obj) then obj else row) <$> table.

(** The primary-key constraint of the table. *)
Definition primary_key (table : list Job) : Prop := NoDup (id <$> table).

(** ** The world a worker acts on: the table and the processes it ran *)

Inductive ProcEvent := Spawn (cmd : string) | Kill.

Record World := { db : list Job; procs : list ProcEvent }.

Definition M (A : Type) : Type := World → (exn + A) * World.

Global Instance M_ret : MRet M := λ A a w, (inr a, w).

Definition raise {A} (e : exn) : M A := λ w, (inl e, w).

(** A computation that does not touch the world. *)
Definition lift {A} (r : exn + A) : M A := λ w, (r, w).

Global Instance M_bind : MBind M := λ A B k m w,
  match m w with
  | (inr a, w') => k a w'
  | (inl e, w') => (inl e, w')
  end.

(** [try: body except <catches> as e: handler e].  What the body did
    before it raised stays done. *)
Definition try_except {A} (body : M A) (catches : exn → bool)
    (handler : exn → M A) : M A :=
  λ w, match body w with
       | (inl e, w') => if catches e then handler e w' else (inl e, w')
       | r => r
       end.

Definition session_commit (obj : Job) : M unit :=
  λ w, (inr (), {| db := flush obj (db w); procs := procs w |}).

(** [session.query(Job)]: the rows of the table. *)
Definition session_query : M (list Job) := λ w, (inr (db w), w).

(** Handing integers to a statement. *)
Definition bind_integers (ns : list Z) : M unit :=
  if decide (Forall int64 ns) then mret ()
  else raise (OverflowError "Python int too large to convert to SQLite INTEGER").

(** [session.add(job); session.commit()]: the INSERT is given the
    integer columns of the new object; when it raises, nothing is
    stored. *)
Definition session_add (row : Z → Job) : M unit :=
  λ w, let job := row (next_id (db w)) in
       match bind_integers [attempts job; max_attempts job; backoff_base job] w
       with
       | (inr _, _) =>
           (inr (), {| db := insert_row row (db w); procs := procs w |})
       | (inl e, _) => (inl e, w)
       end.

(** [session.commit()] with several modified objects. *)
Definition session_commit_all (objs : list Job) : M unit :=
  λ w, (inr (), {| db := foldl (λ table obj, flush obj table) (db w) objs;
                   procs := procs w |}).

Definition log_proc (ev : ProcEvent) : M unit :=
  λ w, (inr (), {| db := db w; procs := procs w ++ [ev] |}).

Definition is_TimeoutExpired (e : exn) : bool :=
  match e with TimeoutExpired _ _ => true | _ => false end.

Definition is_Exception (e : exn) : bool := true.

(** ** subprocess *)

(** What running the command does, as [_execute_job] observes it. *)
Inductive ProcessRun :=
  | SpawnFails (msg : string)
  | Exits (stdout stderr : string) (returncode : Z)
  | TimesOut
  | CommunicateFails (msg : string).

Definition Popen (cmd : string) (run : ProcessRun) : M unit :=
  match run with
  | SpawnFails msg => raise (OtherException msg)
  | _ => log_proc (Spawn cmd)
  end.

Definition communicate (cmd : string) (timeout : Z) (run : ProcessRun)
    : M (string * string * Z) :=
  match run with
  | Exits stdout stderr returncode => mret (stdout, stderr, returncode)
  | TimesOut => raise (TimeoutExpired cmd timeout)
  | CommunicateFails msg => raise (OtherException msg)
  | SpawnFails msg => raise (OtherException msg)
  end.

Definition kill : M unit := log_proc Kill.

(** ** worker.py *)

Module Worker.

(** The names bound at the top level of worker.py: its imports, [logger],
    [Worker] and [start_workers].  ([start_workers] imports [threading]
    into its own local scope.) *)
Definition module_globals : list string :=
  ["os"; "time"; "signal"; "subprocess"; "datetime"; "timedelta"; "Job";
   "JobStatus"; "get_db_session"; "logging"; "logger"; "Worker";
   "start_workers"]%string.

(** The builtins worker.py refers to. *)
Definition builtins : list string := ["Exception"; "str"; "range"]%string.

(** Reading a name that is not local to the function. *)
Definition load_global (name : string) : exn + unit :=
  if decide (name ∈ module_globals) then inr ()
  else if decide (name ∈ builtins) then inr ()
  else inl (NameError name).

(** [threading.Event]: a flag, clear when created. *)
Record Event := { is_set : bool }.

Record Self := {
  worker_id : Z;
  max_jobs : Z;
  shutdown_event : Event;
  current_job : option Job;
  running : bool
}.

(** [def __init__(self, worker_id, max_jobs=10, shutdown_event=None)].
    An [Event] object is truthy and [None] is falsy, so the right operand
    of [or] is evaluated exactly when no event was passed. *)
Definition __init__ (worker_id : Z) (max_jobs : Z)
    (shutdown_event : option Event) : exn + Self :=
  let shutdown_event :=
    match shutdown_event with
    | Some ev => inr ev
    | None =>
        match load_global "threading" with
        | inr _ => inr {| is_set := false |}
        | inl e => inl e
        end
    end in
  match shutdown_event with
  | inr ev => inr {| worker_id := worker_id; max_jobs := max_jobs;
                     shutdown_event := ev; current_job := None;
                     running := false |}
  | inl e => inl e
  end.

(** The filter of the query in [_process_jobs]:
    [status == PENDING and (next_retry_at is NULL or next_retry_at <= now)]. *)
Definition eligible (now : datetime) (job : Job) : bool :=
  bool_decide (status job = PENDING) &&
  match next_retry_at job with
  | None => true
  | Some t => bool_decide (t ≤ now)
  end.

Definition query_pending (now : datetime) (table : list Job) : list Job :=
  filter (λ job, eligible now job) table.

(** [.order_by(Job.created_at)]: the rows, sorted by [created_at].  The
    query names no second key; SQLite reads the table in the order of its
    key [id] and its sort keeps rows of equal [created_at] in the order
    it read them. *)
Definition by_created_at (a b : Job) : Prop :=
  created_at a < created_at b ∨ (created_at a = created_at b ∧ id a ≤ id b).

Definition order_by_created_at (rows result : list Job) : Prop :=
  result ≡ₚ rows ∧ Sorted by_created_at result.

(** [.first()] *)
Definition first (rows : list Job) : option Job := head rows.

(** The query of [_process_jobs] (lines 42 to 45). *)
Definition select_pending (now : datetime) (table : list Job)
    (job : option Job) : Prop :=
  ∃ rows, order_by_created_at (query_pending now table) rows ∧ job = first rows.

(** The assignments of lines 51 to 53. *)
Definition mark_processing (now : datetime) (job : Job) : Job :=
  set_started_at (Some now) (set_attempts (attempts job + 1)
    (set_status PROCESSING job)).

(** The claim of [_process_jobs] (lines 42 to 54): the query, and for a
    job found the assignments and the commit.  [now_q] is the clock read
    by the query, [now_s] the one stored in [started_at]. *)
Inductive claim (now_q now_s : datetime) (table : list Job)
    : option Job → list Job → Prop :=
  | claim_none :
      select_pending now_q table None →
      claim now_q now_s table None table
  | claim_job job :
      select_pending now_q table (Some job) →
      claim now_q now_s table (Some (mark_processing now_s job))
        (flush (mark_processing now_s job) table).

Definition _handle_success (job : Job) (output : string) (now : datetime)
    : M Job :=
  let job := set_status COMPLETED job in
  let job := set_completed_at (Some now) job in
  session_commit job;;
  mret job.

(** [job.attempts >= job.max_attempts] is written
    [max_attempts job ≤ attempts job].  [job.backoff_base ** job.attempts]
    is [Z.pow], which is Python's power on integers for an exponent that
    is not negative.  When [timedelta] or the addition raises, the
    assignments that follow and the commit are not reached. *)
Definition _handle_failure (job : Job) (error : string) (now : datetime)
    : M Job :=
  let job := set_error (Some error) job in
  job ← (if decide (max_attempts job ≤ attempts job) then
           let job := set_status DEAD job in
           mret (set_completed_at (Some now) job)
         else
           let backoff := (backoff_base job ^ attempts job) * 60 in
           delta ← lift (timedelta backoff);
           next_retry_at ← lift (datetime_add now delta);
           let job := set_next_retry_at (Some next_retry_at) job in
           mret (set_status PENDING job));
  session_commit job;;
  mret job.

(** [now] is the clock read by the handler called inside the inner
    [try], [now'] the clock read by the handler of [except Exception].
    That handler is not inside a [try] of its own: what its call of
    [_handle_failure] raises leaves [_execute_job]. *)
Definition _execute_job (job : Job) (run : ProcessRun) (now now' : datetime)
    : M Job :=
  try_except
    (Popen (command job) run;;
     try_except
       ('(stdout, stderr, return_code) ← communicate (command job) 3600 run;
        if decide (return_code = 0) then
          _handle_success job stdout now
        else
          _handle_failure job
            ("Command failed with return code " +:+ pretty return_code
               +:+ newline +:+ stderr) now)
       is_TimeoutExpired
       (λ _, kill;;
             _handle_failure job "Job timed out after 1 hour" now))
    is_Exception
    (λ e, _handle_failure job ("Error executing job: " +:+ str_exn e) now').

(** One call of [_process_jobs].  When [_execute_job] raises, the handler
    logs the exception and rolls the session back: what was committed
    stays, and [_process_jobs] returns. *)
Inductive _process_jobs (now_q now_s now_f now_f' : datetime)
    (run : ProcessRun) (w : World) : World → Prop :=
  | process_none :
      claim now_q now_s (db w) None (db w) →
      _process_jobs now_q now_s now_f now_f' run w w
  | process_job job table r w' :
      claim now_q now_s (db w) (Some job) table →
      _execute_job job run now_f now_f' {| db := table; procs := procs w |}
        = (r, w') →
      _process_jobs now_q now_s now_f now_f' run w w'.

(** [start]: the worlds the loop stands in when it tests its condition.
    [self.running] and the shutdown event are changed from outside the
    loop (by [stop], by the signal handler), so the loop may leave at any
    test; it never leaves inside a call of [_process_jobs].
    [_process_jobs] handles what its body raises, so the handler of the
    loop has nothing to catch. *)
Inductive start : World → World → Prop :=
  | start_leave w : start w w
  | start_iterate now_q now_s now_f now_f' run w w1 w2 :
      _process_jobs now_q now_s now_f now_f' run w w1 →
      start w1 w2 →
      start w w2.

(** [Worker(i + 1, shutdown_event=shutdown_event)] for each [i] of the
    list, in order; [max_jobs] takes its default, 10. *)
Fixpoint construct_workers (indices : list Z) (shutdown_event : Event)
    : exn + list Self :=
  match indices with
  | [] => inr []
  | i :: indices =>
      match __init__ (i + 1) 10 (Some shutdown_event) with
      | inl e => inl e
      | inr worker =>
          match construct_workers indices shutdown_event with
          | inl e => inl e
          | inr workers => inr (worker :: workers)
          end
      end
  end.

(** [start_workers(count)]: the workers it constructs for its threads,
    one for each [i] in [range(count)], all on one new event.  The
    threads themselves and the signal handlers are not modelled. *)
Definition start_workers (count : Z) : exn + list Self :=
  let shutdown_event := {| is_set := false |} in
  construct_workers (seqZ 0 count) shutdown_event.

End Worker.

(** ** cli.py *)

Module cli.

(** The settings [get_config()] returns. *)
Record Config := {
  max_retries : Z;
  backoff_base : Z;
  default_workers : Z;
  log_level : string
}.

Definition DEFAULT_CONFIG : Config :=
  {| max_retries := 3; backoff_base := 2; default_workers := 1;
     log_level := "INFO" |}.

(** [add_command(command, max_retries, backoff_base)]; an option that was
    not given on the command line is [None].  The handler rolls the
    session back and raises [ClickException].  (The callback of the
    group, lines 50 to 62, runs before every command: it sets the level
    of the log and creates the tables, and touches no row.) *)
Definition add_command (config : Config) (command : string)
    (max_retries backoff_base : option Z) (now : datetime) : M unit :=
  try_except
    (let job := λ id,
       new_job id command
         (py_or max_retries (cli.max_retries config))
         (py_or backoff_base (cli.backoff_base config)) now in
     session_add job)
    is_Exception
    (λ e, raise (ClickException "Failed to add job")).

(** The assignments of the loop of [retry_dlq] (lines 179 to 183). *)
Definition reset_job (job : Job) : Job :=
  let job := set_status PENDING job in
  let job := set_attempts 0 job in
  let job := set_error None job in
  let job := set_completed_at None job in
  set_next_retry_at None job.

(** [retry_dlq(job_ids, retry_all)].  Without [--all] the statement of
    the query is given the ids of [job_ids]. *)
Definition retry_dlq (job_ids : list Z) (retry_all : bool) : M unit :=
  if bool_decide (job_ids = []) && negb retry_all then
    raise (UsageError "You must specify job IDs or use --all")
  else
    try_except
      (query ← session_query;
       let query := filter (λ job, status job = DEAD) query in
       jobs ← (if retry_all then mret query
               else bind_integers job_ids;;
                    mret (filter (λ job, id job ∈ job_ids) query));
       if bool_decide (jobs = []) then mret ()
       else session_commit_all (reset_job <$> jobs))
      is_Exception
      (λ e, raise (ClickException "Failed to retry jobs")).

(** [start_workers_cmd(count)]: [--count] is [None] when it is not given. *)
Definition start_workers_cmd (config : Config) (count : option Z)
    : exn + list Worker.Self :=
  let worker_count := py_or count (default_workers config) in
  match Worker.start_workers worker_count with
  | inr workers => inr workers
  | inl e => inl (ClickException "Worker failed")
  end.

(** [.order_by(Job.created_at.desc())]: the rows, newest first; as in
    the claim, rows of equal [created_at] come in the order of [id]. *)
Definition newest_first (a b : Job) : Prop :=
  created_at b < created_at a ∨ (created_at a = created_at b ∧ id a ≤ id b).

Definition order_by_created_at_desc (rows result : list Job) : Prop :=
  result ≡ₚ rows ∧ Sorted newest_first result.

(** [.limit(n)]: the first [n] rows; [n] is given to the statement, and
    SQLite takes a negative LIMIT for no limit. *)
Definition limit (n : Z) (rows : list Job) : exn + list Job :=
  if decide (int64 n) then
    inr (if decide (n < 0) then rows else take (Z.to_nat n) rows)
  else inl (OverflowError "Python int too large to convert to SQLite INTEGER").

(** The query of [list_jobs(status, limit)] (lines 111 to 115): the rows
    it returns, or what it raises.  [--status] is [None] when it is not
    given. *)
Definition list_jobs_query (status : option JobStatus) (limit : Z)
    (table : list Job) (result : exn + list Job) : Prop :=
  let query :=
    match status with
    | Some status => filter (λ job, models.status job = status) table
    | None => table
    end in
  ∃ rows, order_by_created_at_desc query rows ∧ result = cli.limit limit rows.

(** [list_jobs(status, limit)] returns: the rows it prints, in the order
    it prints them; with no row it prints "No jobs found".  The layout of
    a printed row is not modelled. *)
Definition list_jobs (status : option JobStatus) (limit : Z)
    (table jobs : list Job) : Prop :=
  list_jobs_query status limit table (inr jobs).

(** [list_jobs(status, limit)] raises: the function has no handler, so
    what the query raises leaves it. *)
Definition list_jobs_raises (status : option JobStatus) (limit : Z)
    (table : list Job) (e : exn) : Prop :=
  list_jobs_query status limit table (inl e).

(** [.order_by(Job.completed_at.desc())]: SQLite sorts NULL below every
    value, so rows without [completed_at] come last; rows of equal
    [completed_at] come in the order of [id]. *)
Definition last_completed_first (a b : Job) : Prop :=
  match completed_at a, completed_at b with
  | None, None => id a ≤ id b
  | Some _, None => True
  | None, Some _ => False
  | Some x, Some y => y < x ∨ (x = y ∧ id a ≤ id b)
  end.

Definition order_by_completed_at_desc (rows result : list Job) : Prop :=
  result ≡ₚ rows ∧ Sorted last_completed_first result.

(** The loop of [show_dlq] (lines 147 to 153): the rows printed, and the
    exception of [job.completed_at.strftime] at the first row whose
    [completed_at] is [None]. *)
Fixpoint print_dlq (jobs : list Job) : list Job * option exn :=
  match jobs with
  | [] => ([], None)
  | job :: jobs =>
      match completed_at job with
      | None =>
          ([], Some (OtherException
                       "'NoneType' object has no attribute 'strftime'"))
      | Some _ => let '(printed, e) := print_dlq jobs in (job :: printed, e)
      end
  end.

(** [show_dlq()]: the rows it prints, in order, and what it raises.  The
    layout of a printed row is not modelled. *)
Definition show_dlq (table : list Job) (result : list Job * option exn)
    : Prop :=
  ∃ jobs,
    order_by_completed_at_desc
      (filter (λ job, models.status job = DEAD) table) jobs ∧
    result = print_dlq jobs.

(** The dictionary [status_counts] of [status] (lines 202 to 205): for
    each member of [JobStatus], in the order of the class, the number of
    rows with that status. *)
Definition status_counts (table : list Job) : list (JobStatus * nat) :=
  (λ status,
     (status, length (filter (λ job, models.status job = status) table)))
    <$> [PENDING; PROCESSING; COMPLETED; FAILED; DEAD].

(** The configuration file.  [None] is no file, or one that cannot be
    read; a file holds what [save_config] wrote, a value for each of the
    four keys, so that [{**DEFAULT_CONFIG, **json.load(f)}] is the
    content of the file. *)
Definition get_config (file : option Config) : Config :=
  match file with
  | Some config => config
  | None => DEFAULT_CONFIG
  end.

(** [config[key] = value] for the keys with an integer value. *)
Definition set_int (key : string) (value : Z) (config : Config) : Config :=
  if decide (key = "max_retries") then
    {| max_retries := value; backoff_base := backoff_base config;
       default_workers := default_workers config;
       log_level := log_level config |}
  else if decide (key = "backoff_base") then
    {| max_retries := max_retries config; backoff_base := value;
       default_workers := default_workers config;
       log_level := log_level config |}
  else if decide (key = "default_workers") then
    {| max_retries := max_retries config;
       backoff_base := backoff_base config;
       default_workers := value; log_level := log_level config |}
  else config.

(** [config["log_level"] = value] *)
Definition set_log_level (value : string) (config : Config) : Config :=
  {| max_retries := max_retries config; backoff_base := backoff_base config;
     default_workers := default_workers config; log_level := value |}.

Section config_set.

(** Python's [int] on a string: the integer, or the message of the
    [ValueError]. *)
Variable int : string → string + Z.

(** [config_set(key, value)]: the configuration it saves, or what it
    raises; it saves nothing when it raises. *)
Definition config_set (key value : string) (file : option Config)
    : exn + Config :=
  let config := get_config file in
  if decide (key ∈ ["max_retries"; "backoff_base"; "default_workers";
                    "log_level"]%string) then
    if decide (key ∈ ["max_retries"; "default_workers";
                      "backoff_base"]%string) then
      match int value with
      | inr value =>
          if decide (value ≤ 0) then
            inl (UsageError ("Invalid value for " +:+ key +:+
                             ": Value must be positive"))
          else inr (set_int key value config)
      | inl msg =>
          inl (UsageError ("Invalid value for " +:+ key +:+ ": " +:+ msg))
      end
    else inr (set_log_level value config)
  else inl (UsageError ("Invalid config key: " +:+ key)).

(** The file after a call of [config_set]. *)
Definition config_file_after (file : option Config) (call : string * string)
    : option Config :=
  match config_set call.1 call.2 file with
  | inr config => Some config
  | inl _ => file
  end.

End config_set.

End cli.

(** ** The queue as a transition system *)

Definition world (table : list Job) : World := {| db := table; procs := [] |}.

(** One operation on the table: a submission, a claim, the outcome of the
    execution of a claimed job, a retry of dead jobs. *)
Inductive step : list Job → list Job → Prop :=
  | step_add config command max_retries backoff_base now table r w :
      cli.add_command config command max_retries backoff_base now
        (world table) = (r, w) →
      step table (db w)
  | step_claim now_q now_s table job table' :
      Worker.claim now_q now_s table (Some job) table' →
      step table table'
  | step_outcome job run now now' table r w :
      job ∈ table →
      status job = PROCESSING →
      Worker._execute_job job run now now' (world table) = (r, w) →
      step table (db w)
  | step_retry job_ids retry_all table r w :
      cli.retry_dlq job_ids retry_all (world table) = (r, w) →
      step table (db w).

(** The tables the operations build from the empty one. *)
Definition reachable (table : list Job) : Prop := rtc step [] table.

(** ** Callers of the claim *)

(** Calls of the claim made one after the other, each with its two clock
    readings; the results, in the order of the calls. *)
Inductive claim_calls : list (datetime * datetime) → list Job →
    list (option Job) → list Job → Prop :=
  | claim_calls_nil table : claim_calls [] table [] table
  | claim_calls_cons now_q now_s clocks table r table1 rs table2 :
      Worker.claim now_q now_s table r table1 →
      claim_calls clocks table1 rs table2 →
      claim_calls ((now_q, now_s) :: clocks) table (r :: rs) table2.

(** A caller of the claim: before its query, between its query and its
    commit, and after it returned. *)
Inductive Caller :=
  | Ready
  | Selected (job : Job)
  | Returned (result : option Job).

(** Callers that run at the same time, each on a session of its own.  The
    query and the commit of a caller are two statements, and statements
    of other callers may run between them.  The commit writes back the
    object the query returned, with the assignments of lines 51 to 53. *)
Inductive claim_step : list Job * list Caller → list Job * list Caller → Prop :=
  | claim_step_query i now table callers job :
      callers !! i = Some Ready →
      Worker.select_pending now table job →
      claim_step (table, callers)
        (table, <[i := match job with
                       | Some job => Selected job
                       | None => Returned None
                       end]> callers)
  | claim_step_commit i now table callers job :
      callers !! i = Some (Selected job) →
      claim_step (table, callers)
        (flush (Worker.mark_processing now job) table,
         <[i := Returned (Some (Worker.mark_processing now job))]> callers).

(** ** Definitions used by the statements *)

(** The delays and dates Python can hold: [n] seconds as a [timedelta],
    and the date [n] seconds after [now]. *)
Definition representable (now : datetime) (n : Z) : Prop :=
  -999999999 ≤ n `div` 86400 ≤ 999999999 ∧
  datetime_min ≤ now + seconds n ≤ datetime_max.

(** The date of the next attempt, as [_handle_failure] computes it. *)
Definition retry_date (job : Job) (now : datetime) : exn + datetime :=
  match timedelta (backoff_base job ^ attempts job * 60) with
  | inr delta => datetime_add now delta
  | inl e => inl e
  end.


(** The jobs [_handle_failure] leaves behind. *)
Definition died (job : Job) (error : string) (now : datetime) : Job :=
  set_completed_at (Some now) (set_status DEAD (set_error (Some error) job)).

Definition rescheduled (job : Job) (error : string) (retry_at : datetime)
    : Job :=
  set_status PENDING
    (set_next_retry_at (Some retry_at) (set_error (Some error) job)).

(** What [_handle_failure] returns or raises. *)
Definition failed (job : Job) (error : string) (now : datetime) : exn + Job :=
  if decide (max_attempts job ≤ attempts job) then inr (died job error now)
  else
    match retry_date job now with
    | inr retry_at => inr (rescheduled job error retry_at)
    | inl e => inl e
    end.

(** The job [_handle_success] leaves behind. *)
Definition succeeded (job : Job) (now : datetime) : Job :=
  set_completed_at (Some now) (set_status COMPLETED job).

(** What the handler of [except Exception] in [_execute_job] returns or
    raises. *)
Definition handled (job : Job) (e : exn) (now' : datetime) : exn + Job :=
  failed job ("Error executing job: " +:+ str_exn e) now'.

(** What [_execute_job] returns or raises. *)
Definition outcome (job : Job) (run : ProcessRun) (now now' : datetime)
    : exn + Job :=
  match run with
  | SpawnFails msg | CommunicateFails msg =>
      handled job (OtherException msg) now'
  | Exits _ stderr return_code =>
      if decide (return_code = 0) then inr (succeeded job now)
      else
        match failed job ("Command failed with return code " +:+
                          pretty return_code +:+ newline +:+ stderr) now with
        | inr job' => inr job'
        | inl e => handled job e now'
        end
  | TimesOut =>
      match failed job "Job timed out after 1 hour" now with
      | inr job' => inr job'
      | inl e => handled job e now'
      end
  end.

Definition run_events (cmd : string) (run : ProcessRun) : list ProcEvent :=
  match run with
  | SpawnFails _ => []
  | TimesOut => [Spawn cmd; Kill]
  | _ => [Spawn cmd]
  end.

Global Instance by_created_at_dec : RelDecision Worker.by_created_at.
Proof. intros a b. unfold Worker.by_created_at. apply _. Defined.

(** The jobs a retry of the dead-letter queue works on. *)
Definition retried (job_ids : list Z) (retry_all : bool) (job : Job) : Prop :=
  status job = DEAD ∧ (retry_all = true ∨ id job ∈ job_ids).

Global Instance retried_dec job_ids retry_all job :
  Decision (retried job_ids retry_all job).
Proof. unfold retried. apply _. Defined.

(** What writing [obj] back does to one row. *)
Definition overwrite (row obj : Job) : Job :=
  if decide (id row = id obj) then obj else row.

(** What holds of every job of a reachable table. *)
Definition job_ok (job : Job) : Prop :=
  0 ≤ attempts job ∧
  (status job = PROCESSING → 1 ≤ attempts job) ∧
  (status job = DEAD →
     max_attempts job ≤ attempts job ∧ is_Some (completed_at job)) ∧
  (status job = PENDING ∨ status job = PROCESSING → completed_at job = None).

(** One attempt that fails: the claim of the job (lines 51 to 54 of
    [_process_jobs]) and the failure of its execution. *)
Definition failing_attempt (now_s now_f : datetime) (error : string)
    (job : Job) : M Job :=
  let job := Worker.mark_processing now_s job in
  session_commit job;;
  Worker._handle_failure job error now_f.

(** Jobs and tables of the examples. *)
Definition sample_job : Job := new_job 1 "exit 1" 3 2 1000.

Definition exhausted_job : Job :=
  Worker.mark_processing 4000 (set_attempts 2 sample_job).

Definition dead_job : Job :=
  set_completed_at (Some 3000)
    (set_status DEAD (set_error (Some "boom") (set_attempts 3 sample_job))).

Definition done_job : Job :=
  set_completed_at (Some 3000)
    (set_status COMPLETED (set_attempts 1 (new_job 2 "echo hi" 3 2 1500))).

Definition died_job : Job :=
  died (Worker.mark_processing 2000 (new_job 1 "exit 1" 1 2 1000))
    ("Command failed with return code " +:+ pretty 1 +:+ newline +:+ "") 3000.

Definition tie_first : Job := new_job 1 "echo a" 3 2 1000.

Definition tie_second : Job := new_job 2 "echo b" 3 2 1000.

Definition completed_job : Job :=
  succeeded (Worker.mark_processing 2000 sample_job) 3000.

Definition retried_job : Job :=
  rescheduled (Worker.mark_processing 2000 sample_job)
    ("Command failed with return code " +:+ pretty 1 +:+ newline +:+ "boom")
    (3000 + seconds 120).

Definition fresh_job : Job := new_job 2 "echo hi" 3 2 4000.

(** A job submitted with [--backoff-base 10000000000] on 2026-11-03 at
    12:00:00, and claimed a second later. *)
Definition huge_job : Job :=
  new_job 1 "exit 1" 3 10000000000 63929304000000000.

Definition huge_claimed : Job :=
  Worker.mark_processing 63929304001000000 huge_job.

(** What one operation may do to a row. *)
Inductive row_step : Job → Job → Prop :=
  | row_same job : row_step job job
  | row_claimed now job :
      status job = PENDING → row_step job (Worker.mark_processing now job)
  | row_succeeded now job :
      status job = PROCESSING → row_step job (succeeded job now)
  | row_died error now job :
      status job = PROCESSING → max_attempts job ≤ attempts job →
      row_step job (died job error now)
  | row_rescheduled error retry_at job :
      status job = PROCESSING → attempts job < max_attempts job →
      row_step job (rescheduled job error retry_at)
  | row_reset job :
      status job = DEAD → row_step job (cli.reset_job job).

(** The columns no operation assigns. *)
Definition same_identity (a b : Job) : Prop :=
  id a = id b ∧ command a = command b ∧ created_at a = created_at b ∧
  max_attempts a = max_attempts b ∧ backoff_base a = backoff_base b.

(** The arrows of the life of a job. *)
Definition status_transition (a b : JobStatus) : Prop :=
  a = b ∨
  (a = PENDING ∧ b = PROCESSING) ∨
  (a = PROCESSING ∧ (b = COMPLETED ∨ b = PENDING ∨ b = DEAD)) ∨
  (a = DEAD ∧ b = PENDING).

(** The bound of [attempts], for a limit of at least 1 and for a limit
    below 1. *)
Definition attempts_bounded (job : Job) : Prop :=
  0 ≤ attempts job ∧
  (status job ≠ PENDING → 1 ≤ attempts job) ∧
  (1 ≤ max_attempts job →
     attempts job ≤ max_attempts job ∧
     (status job = PENDING → attempts job < max_attempts job) ∧
     (status job = DEAD → attempts job = max_attempts job)) ∧
  (max_attempts job ≤ 0 →
     attempts job ≤ 1 ∧ (status job = PENDING → attempts job = 0)).

(** The settings [config_set] accepts. *)
Definition positive_settings (config : cli.Config) : Prop :=
  1 ≤ cli.max_retries config ∧ 1 ≤ cli.backoff_base config ∧
  1 ≤ cli.default_workers config.

Global Instance newest_first_dec : RelDecision cli.newest_first.
Proof. intros a b. unfold cli.newest_first. apply _. Defined.

Global Instance last_completed_first_dec :
  RelDecision cli.last_completed_first.
Proof.
  intros a b. unfold cli.last_completed_first.
  destruct (completed_at a), (completed_at b); apply _.
Defined.

Global Instance representable_dec now n : Decision (representable now n).
Proof. unfold representable. apply _. Defined.

(** A stand-in for Python's [int] in the examples: it reads the three
    strings the examples use. *)
Definition int_of_example (s : string) : string + Z :=
  if decide (s = "5") then inr 5
  else if decide (s = "0") then inr 0
  else if decide (s = "-2") then inr (-2)
  else inl ("invalid literal for int() with base 10: '" +:+ s +:+ "'").

Ltac step_M :=
  unfold mbind, M_bind, mret, M_ret;
  cbn [Popen communicate kill raise lift log_proc session_commit
       session_query session_commit_all is_Exception is_TimeoutExpired
       procs db fst snd mret M_ret mbind M_bind].

(** ** What the operations compute *)

Lemma timedelta_inr n delta :
  timedelta n = inr delta ↔
  -999999999 ≤ n `div` 86400 ≤ 999999999 ∧ delta = seconds n.
Proof.
  unfold timedelta. cbv zeta. destruct (decide _) as [Hdays|Hdays].
  - split; [by intros [= <-]|by intros [_ ->]].
  - destruct (decide _); split; (done || by intros [? _]).
Qed.

Lemma datetime_add_inr t delta r :
  datetime_add t delta = inr r ↔
  datetime_min ≤ t + delta ≤ datetime_max ∧ r = t + delta.
Proof.
  unfold datetime_add. destruct (decide _) as [Hrange|Hrange].
  - split; [by intros [= <-]|by intros [_ ->]].
  - split; (done || by intros [? _]).
Qed.

Lemma retry_date_inr job now retry_at :
  retry_date job now = inr retry_at ↔
  representable now (backoff_base job ^ attempts job * 60) ∧
  retry_at = now + seconds (backoff_base job ^ attempts job * 60).
Proof.
  unfold retry_date, representable.
  destruct (timedelta _) as [e|delta] eqn:Hdelta.
  - split; [done|]. intros [[Hdays _] _].
    assert (timedelta (backoff_base job ^ attempts job * 60) =
            inr (seconds (backoff_base job ^ attempts job * 60))) as Heq
      by (by apply timedelta_inr).
    congruence.
  - apply timedelta_inr in Hdelta as [Hdays ->].
    rewrite datetime_add_inr. split.
    + by intros [Hrange ->].
    + by intros [[_ Hrange] ->].
Qed.

Lemma retry_date_representable job now :
  representable now (backoff_base job ^ attempts job * 60) →
  retry_date job now =
  inr (now + seconds (backoff_base job ^ attempts job * 60)).
Proof. intros Hrep. by apply retry_date_inr. Qed.

Lemma retry_date_inl job now e :
  retry_date job now = inl e →
  ¬ representable now (backoff_base job ^ attempts job * 60) ∧
  ∃ msg, e = OverflowError msg.
Proof.
  intros Hraise. split.
  - intros Hrep. rewrite retry_date_representable in Hraise by done. done.
  - unfold retry_date, timedelta, datetime_add in Hraise. cbv zeta in Hraise.
    repeat (destruct (decide _) in Hraise); simplify_eq; eauto.
Qed.

Lemma failed_dead job error now :
  max_attempts job ≤ attempts job →
  failed job error now = inr (died job error now).
Proof. intros Hmax. unfold failed. by rewrite decide_True. Qed.

Lemma failed_retry job error now :
  attempts job < max_attempts job →
  representable now (backoff_base job ^ attempts job * 60) →
  failed job error now =
  inr (rescheduled job error
         (now + seconds (backoff_base job ^ attempts job * 60))).
Proof.
  intros Hless Hrep. unfold failed. rewrite decide_False by lia.
  by rewrite retry_date_representable.
Qed.


Lemma failed_inr job error now job' :
  failed job error now = inr job' →
  (max_attempts job ≤ attempts job ∧ job' = died job error now) ∨
  (attempts job < max_attempts job ∧
   representable now (backoff_base job ^ attempts job * 60) ∧
   job' = rescheduled job error
            (now + seconds (backoff_base job ^ attempts job * 60))).
Proof.
  unfold failed. destruct (decide _) as [Hmax|Hless].
  - intros [= <-]. by left.
  - destruct (retry_date job now) as [e|retry_at] eqn:Hdate; [done|].
    intros [= <-]. apply retry_date_inr in Hdate as [Hrep ->].
    right. split_and!; [lia|done|done].
Qed.

Lemma failed_inl job error now e :
  failed job error now = inl e →
  attempts job < max_attempts job ∧
  ¬ representable now (backoff_base job ^ attempts job * 60) ∧
  ∃ msg, e = OverflowError msg.
Proof.
  unfold failed. destruct (decide _) as [Hmax|Hless]; [done|].
  destruct (retry_date job now) as [e'|retry_at] eqn:Hdate; [|done].
  intros [= <-]. apply retry_date_inl in Hdate as [Hrep Hmsg].
  split_and!; [lia|done|done].
Qed.


Lemma handle_failure_run job error now w :
  Worker._handle_failure job error now w =
  match failed job error now with
  | inr job' => (inr job', {| db := flush job' (db w); procs := procs w |})
  | inl e => (inl e, w)
  end.
Proof.
  unfold Worker._handle_failure, failed, retry_date. cbv zeta.
  cbn [max_attempts attempts backoff_base set_error].
  destruct (decide _) as [Hmax|Hless]; step_M; [done|].
  destruct (timedelta _) as [e|delta]; [done|].
  destruct (datetime_add now delta) as [e|retry_at]; done.
Qed.

Lemma handle_success_run job output now :
  Worker._handle_success job output now =
  λ w, (inr (succeeded job now),
        {| db := flush (succeeded job now) (db w); procs := procs w |}).
Proof. reflexivity. Qed.

Lemma execute_job_run job run now now' w :
  Worker._execute_job job run now now' w =
  match outcome job run now now' with
  | inr job' =>
      (inr job',
       {| db := flush job' (db w);
          procs := procs w ++ run_events (command job) run |})
  | inl e =>
      (inl e,
       {| db := db w; procs := procs w ++ run_events (command job) run |})
  end.
Proof.
  unfold Worker._execute_job, outcome, handled, try_except.
  destruct run as [msg|out err rc| |msg]; cbn [run_events]; step_M.
  - rewrite handle_failure_run. cbn [str_exn].
    destruct w as [table events]. cbn [db procs]. rewrite app_nil_r.
    by destruct (failed _ _ _).
  - destruct (decide (rc = 0)); step_M.
    + by rewrite handle_success_run.
    + rewrite handle_failure_run.
      destruct (failed job _ now) as [e|job'] eqn:Hfailed; [|done].
      apply failed_inl in Hfailed as (_ & _ & msg & ->).
      cbn [is_TimeoutExpired]. rewrite handle_failure_run.
      by destruct (failed _ _ _).
  - rewrite handle_failure_run.
    destruct (failed job _ now) as [e|job'] eqn:Hfailed.
    + apply failed_inl in Hfailed as (_ & _ & msg & ->).
      rewrite handle_failure_run. cbn [db procs].
      destruct (failed _ _ _); by rewrite <- app_assoc.
    + cbn [db procs]. by rewrite <- app_assoc.
  - rewrite handle_failure_run. cbn [str_exn].
    by destruct (failed _ _ _).
Qed.

Lemma outcome_cases job run now now' job' :
  outcome job run now now' = inr job' →
  job' = succeeded job now ∨
  (∃ error t, max_attempts job ≤ attempts job ∧ job' = died job error t) ∨
  (∃ error t, attempts job < max_attempts job ∧
              job' = rescheduled job error t).
Proof.
  assert (∀ error t, failed job error t = inr job' →
            (∃ error t, max_attempts job ≤ attempts job ∧
                        job' = died job error t) ∨
            (∃ error t, attempts job < max_attempts job ∧
                        job' = rescheduled job error t)) as Hfailed.
  { intros error t [[? ->]|(? & _ & ->)]%failed_inr; [left|right]; eauto. }
  unfold outcome, handled.
  destruct run as [msg|out err rc| |msg].
  - intros H. right. by eapply Hfailed.
  - destruct (decide (rc = 0)); [intros [= <-]; by left|].
    destruct (failed job _ now) as [e|job1] eqn:H1.
    + intros H. right. by eapply Hfailed.
    + intros [= <-]. right. by eapply Hfailed.
  - destruct (failed job _ now) as [e|job1] eqn:H1.
    + intros H. right. by eapply Hfailed.
    + intros [= <-]. right. by eapply Hfailed.
  - intros H. right. by eapply Hfailed.
Qed.

Lemma outcome_inl job run now now' e :
  outcome job run now now' = inl e →
  attempts job < max_attempts job ∧
  ¬ representable now' (backoff_base job ^ attempts job * 60) ∧
  ∃ msg, e = OverflowError msg.
Proof.
  unfold outcome, handled.
  destruct run as [msg|out err rc| |msg].
  - apply failed_inl.
  - destruct (decide (rc = 0)); [done|].
    destruct (failed job _ now) as [e1|job1]; [apply failed_inl|done].
  - destruct (failed job _ now) as [e1|job1]; [apply failed_inl|done].
  - apply failed_inl.
Qed.


Lemma outcome_id job run now now' job' :
  outcome job run now now' = inr job' → id job' = id job.
Proof.
  intros [->|[(error & t & _ & ->)|(error & t & _ & ->)]]%outcome_cases; done.
Qed.

Lemma add_command_run config command max_retries backoff_base now w :
  cli.add_command config command max_retries backoff_base now w =
  let job := new_job (next_id (db w)) command
               (py_or max_retries (cli.max_retries config))
               (py_or backoff_base (cli.backoff_base config)) now in
  if decide (int64 (max_attempts job) ∧ int64 (models.backoff_base job)) then
    (inr (), {| db := db w ++ [job]; procs := procs w |})
  else (inl (ClickException "Failed to add job"), w).
Proof.
  cbv zeta. unfold cli.add_command, try_except, session_add, bind_integers.
  cbn [attempts max_attempts models.backoff_base new_job].
  destruct (decide (int64 _ ∧ int64 _)) as [[Hmax Hbase]|Hnot].
  - rewrite decide_True; [done|].
    apply Forall_cons; split; [unfold int64; lia|].
    apply Forall_cons; split; [done|].
    apply Forall_cons; split; [done|]. constructor.
  - rewrite decide_False; [done|]. intros Hall. apply Hnot.
    inversion Hall as [|? ? _ Hrest]; subst.
    inversion Hrest as [|? ? Hmax Hrest']; subst.
    inversion Hrest' as [|? ? Hbase _]; subst. done.
Qed.

Lemma retry_dlq_query job_ids (table : list Job) :
  filter (λ job : Job, id job ∈ job_ids)
    (filter (λ job : Job, status job = DEAD) table) =
  filter (retried job_ids false) table.
Proof.
  rewrite list_filter_filter. apply list_filter_iff. intros job.
  unfold retried. split.
  - intros [H1 H2]. split; [done|by right].
  - intros [H1 [H2|H2]]; [done|]. by split.
Qed.

Lemma retry_dlq_query_all job_ids (table : list Job) :
  filter (λ job : Job, status job = DEAD) table =
  filter (retried job_ids true) table.
Proof.
  apply list_filter_iff. intros job. unfold retried. split.
  - intros H. split; [done|by left].
  - by intros [H _].
Qed.

Lemma retry_dlq_run job_ids retry_all w :
  cli.retry_dlq job_ids retry_all w =
  if bool_decide (job_ids = []) && negb retry_all then
    (inl (UsageError "You must specify job IDs or use --all"), w)
  else if decide (retry_all = true ∨ Forall int64 job_ids) then
    (inr (),
     {| db := foldl (λ table obj, flush obj table) (db w)
                (cli.reset_job <$> filter (retried job_ids retry_all) (db w));
        procs := procs w |})
  else (inl (ClickException "Failed to retry jobs"), w).
Proof.
  unfold cli.retry_dlq.
  destruct (bool_decide (job_ids = []) && negb retry_all); [done|].
  unfold try_except, bind_integers. step_M. cbv zeta.
  destruct retry_all.
  - rewrite decide_True by (by left). step_M.
    rewrite <- (retry_dlq_query_all job_ids).
    destruct (filter _ _) as [|job jobs] eqn:Hjobs.
    + rewrite bool_decide_eq_true_2 by done. step_M. by destruct w.
    + rewrite bool_decide_eq_false_2 by done. by step_M.
  - destruct (decide (Forall int64 job_ids)) as [Hids|Hids].
    + rewrite decide_True by (by right). step_M. rewrite retry_dlq_query.
      destruct (filter _ _) as [|job jobs] eqn:Hjobs.
      * rewrite bool_decide_eq_true_2 by done. step_M. by destruct w.
      * rewrite bool_decide_eq_false_2 by done. by step_M.
    + rewrite decide_False by (by intros [?|?]). by step_M.
Qed.

Lemma failing_attempt_run now_s now_f error job w :
  failing_attempt now_s now_f error job w =
  match failed (Worker.mark_processing now_s job) error now_f with
  | inr job' =>
      (inr job',
       {| db := flush job' (flush (Worker.mark_processing now_s job) (db w));
          procs := procs w |})
  | inl e =>
      (inl e,
       {| db := flush (Worker.mark_processing now_s job) (db w);
          procs := procs w |})
  end.
Proof.
  unfold failing_attempt. step_M. rewrite handle_failure_run.
  by destruct (failed _ _ _).
Qed.

Lemma failing_attempt_counters now_s now_f error job job' :
  failed (Worker.mark_processing now_s job) error now_f = inr job' →
  attempts job' = attempts job + 1 ∧ max_attempts job' = max_attempts job ∧
  backoff_base job' = backoff_base job ∧
  (attempts job + 1 < max_attempts job → status job' = PENDING) ∧
  (max_attempts job ≤ attempts job + 1 →
     status job' = DEAD ∧ completed_at job' = Some now_f ∧
     models.error job' = Some error).
Proof.
  intros [[Hmax ->]|(Hless & _ & ->)]%failed_inr; cbn in *;
    split_and!; try done; intros; lia.
Qed.
(** ** Tables *)

Lemma flush_ids obj table : id <$> flush obj table = id <$> table.
Proof.
  unfold flush. rewrite <- list_fmap_compose. apply list_fmap_ext.
  intros i row _. simpl. by destruct (decide _).
Qed.

Lemma flush_all_ids objs table :
  id <$> foldl (λ table obj, flush obj table) table objs = id <$> table.
Proof.
  revert table. induction objs as [|obj objs IH]; intros table; [done|].
  simpl. by rewrite IH, flush_ids.
Qed.

Lemma Forall_flush (P : Job → Prop) obj table :
  P obj → Forall P table → Forall P (flush obj table).
Proof.
  intros Hobj Htable. unfold flush. apply Forall_fmap.
  eapply Forall_impl; [exact Htable|]. intros row Hrow. simpl.
  by destruct (decide _).
Qed.

Lemma Forall_flush_all (P : Job → Prop) objs table :
  Forall P objs → Forall P table →
  Forall P (foldl (λ table obj, flush obj table) table objs).
Proof.
  intros Hobjs. revert table. induction Hobjs as [|obj objs Hobj _ IH];
    intros table Htable; [done|].
  simpl. apply IH. by apply Forall_flush.
Qed.

Lemma next_id_fresh table : Forall (λ row, id row < next_id table) table.
Proof.
  unfold next_id. induction table as [|row table IH]; [done|].
  constructor; simpl; [lia|].
  eapply Forall_impl; [exact IH|]. intros r Hr. simpl in Hr. lia.
Qed.

Lemma primary_key_flush obj table :
  primary_key table → primary_key (flush obj table).
Proof. unfold primary_key. by rewrite flush_ids. Qed.

Lemma primary_key_flush_all objs table :
  primary_key table →
  primary_key (foldl (λ table obj, flush obj table) table objs).
Proof. unfold primary_key. by rewrite flush_all_ids. Qed.

Lemma primary_key_insert_row row table :
  (∀ i, id (row i) = i) →
  primary_key table → primary_key (insert_row row table).
Proof.
  unfold primary_key, insert_row. intros Hid Hnodup.
  rewrite fmap_app. simpl. rewrite Hid.
  apply NoDup_app. split_and!; [done| |apply NoDup_singleton].
  intros i Hi Hi'. apply list_elem_of_singleton in Hi'. subst i.
  apply list_elem_of_fmap in Hi as (r & Hr & Hin).
  pose proof (next_id_fresh table) as Hfresh.
  rewrite Forall_forall in Hfresh. specialize (Hfresh r Hin). lia.
Qed.

Lemma primary_key_inj table row row' :
  primary_key table → row ∈ table → row' ∈ table → id row = id row' →
  row = row'.
Proof.
  intros Hkey Hrow Hrow' Hid.
  apply list_elem_of_lookup in Hrow as [i Hi].
  apply list_elem_of_lookup in Hrow' as [i' Hi'].
  assert (i = i') as <-; [|congruence].
  eapply (NoDup_lookup _ _ _ _ Hkey).
  - by rewrite list_lookup_fmap, Hi.
  - by rewrite list_lookup_fmap, Hi', Hid.
Qed.

Lemma flush_all_rows objs table :
  foldl (λ table obj, flush obj table) table objs =
  (λ row, foldl overwrite row objs) <$> table.
Proof.
  revert table. induction objs as [|obj objs IH]; intros table; simpl.
  - by rewrite list_fmap_id.
  - rewrite IH. unfold flush. rewrite <- list_fmap_compose.
    by apply list_fmap_ext.
Qed.

Lemma overwrite_all row obj objs :
  id obj = id row →
  (∀ o, o ∈ objs → id o = id row → o = obj) →
  foldl overwrite row objs = (if decide (obj ∈ objs) then obj else row) ∧
  foldl overwrite obj objs = obj.
Proof.
  intros Hid. induction objs as [|o objs IH]; intros Hobjs.
  - split; [|done]. destruct (decide (obj ∈ [])) as [Hin|Hin]; [|done].
    by apply elem_of_nil in Hin.
  - destruct IH as [IHrow IHobj].
    { intros o' Ho'. apply Hobjs. by right. }
    cbn [foldl]. unfold overwrite at 2 4. rewrite Hid.
    destruct (decide (id row = id o)) as [Heq|Hne].
    + assert (o = obj) as -> by (apply Hobjs; [left|done]).
      rewrite IHobj. split; [|done].
      destruct (decide (obj ∈ obj :: objs)) as [Hin|Hin]; [done|].
      exfalso. apply Hin. left.
    + rewrite IHrow, IHobj. split; [|done].
      destruct (decide (obj ∈ objs)) as [Hin|Hin];
        destruct (decide (obj ∈ o :: objs)) as [Hin'|Hin']; try done.
      * exfalso. apply Hin'. by right.
      * apply elem_of_cons in Hin' as [->|?]; [|done]. by rewrite Hid in Hne.
Qed.

Lemma flush_all_reset (sel : Job → Prop) `{!∀ job, Decision (sel job)} table :
  primary_key table →
  foldl (λ table obj, flush obj table) table
    (cli.reset_job <$> filter sel table) =
  (λ job, if decide (sel job) then cli.reset_job job else job) <$> table.
Proof.
  intros Hkey. rewrite flush_all_rows.
  apply list_fmap_ext. intros i row Hrow.
  assert (row ∈ table) as Hin by (by eapply list_elem_of_lookup_2).
  destruct (overwrite_all row (cli.reset_job row)
              (cli.reset_job <$> filter sel table)) as [-> _].
  - reflexivity.
  - intros o Ho Hid. apply list_elem_of_fmap in Ho as (r & -> & Hr).
    apply list_elem_of_filter in Hr as [_ Hr]. f_equal.
    by eapply primary_key_inj.
  - destruct (decide (sel row)) as [Hsel|Hsel].
    + rewrite decide_True; [done|]. apply list_elem_of_fmap.
      exists row. split; [done|]. by apply list_elem_of_filter.
    + rewrite decide_False; [done|]. intros Hin'.
      apply list_elem_of_fmap in Hin' as (r & Heq & Hr).
      apply list_elem_of_filter in Hr as [Hsel' Hr].
      assert (r = row) as ->; [|done].
      eapply primary_key_inj; [done..|].
      change (id r) with (id (cli.reset_job r)). by rewrite <- Heq.
Qed.

(** ** The query of the claim *)

Lemma eligible_pending now job :
  Worker.eligible now job = true → status job = PENDING.
Proof.
  unfold Worker.eligible. intros H. apply andb_prop in H as [H _].
  by apply bool_decide_eq_true in H.
Qed.


Lemma order_by_created_at_first rows result job :
  Worker.order_by_created_at rows result →
  Worker.first result = Some job →
  job ∈ rows ∧ Forall (λ row, Worker.by_created_at job row) rows.
Proof.
  intros [Hperm Hsorted] Hfirst.
  destruct result as [|j result]; simplify_eq/=.
  split.
  - rewrite <- Hperm. left.
  - rewrite <- Hperm.
    apply Sorted_StronglySorted in Hsorted;
      [|intros a b c; unfold Worker.by_created_at; lia].
    apply StronglySorted_inv in Hsorted as [_ Hhd].
    constructor; [unfold Worker.by_created_at; lia|done].
Qed.


Lemma select_pending_some now table job :
  Worker.select_pending now table (Some job) →
  job ∈ table ∧ Worker.eligible now job = true ∧
  ∀ row, row ∈ table → Worker.eligible now row = true →
         Worker.by_created_at job row.
Proof.
  intros (rows & Horder & Hfirst). symmetry in Hfirst.
  destruct (order_by_created_at_first _ _ _ Horder Hfirst) as [Hin Hmin].
  unfold Worker.query_pending in Hin, Hmin.
  apply list_elem_of_filter in Hin as [Hel Hin].
  split_and!; [done|by apply Is_true_true|].
  intros row Hrow Helig. rewrite Forall_forall in Hmin. apply Hmin.
  apply list_elem_of_filter. split; [by apply Is_true_true|done].
Qed.

Lemma select_pending_none now table :
  Worker.select_pending now table None ↔ Worker.query_pending now table = [].
Proof.
  split.
  - intros (rows & [Hperm _] & Hfirst). destruct rows; simplify_eq/=.
    by apply Permutation_nil_l in Hperm.
  - intros Hnil. exists []. rewrite Hnil. split; [|done].
    split; [done|constructor].
Qed.

(** A query whose filter keeps one row returns that row. *)
Lemma select_pending_singleton now table job :
  Worker.query_pending now table = [job] →
  Worker.select_pending now table (Some job).
Proof.
  intros Hq. exists [job]. rewrite Hq. split; [|done].
  split; [done|]. repeat constructor.
Qed.

Lemma query_pending_empty now table :
  Worker.query_pending now table = [] ↔
  ∀ row, row ∈ table → Worker.eligible now row = false.
Proof.
  unfold Worker.query_pending. split.
  - intros Hnil row Hrow. destruct (Worker.eligible now row) eqn:Helig; [|done].
    assert (row ∈ filter (λ job, Worker.eligible now job) table) as Hin.
    { apply list_elem_of_filter. split; [by apply Is_true_true|done]. }
    rewrite Hnil in Hin. by apply elem_of_nil in Hin.
  - intros Hnone. destruct (filter _ table) as [|row rows] eqn:Hfilter; [done|].
    assert (row ∈ filter (λ job, Worker.eligible now job) table) as Hin.
    { rewrite Hfilter. left. }
    apply list_elem_of_filter in Hin as [Helig Hin].
    apply Is_true_true in Helig. by rewrite (Hnone row Hin) in Helig.
Qed.

Lemma query_pending_after_claim now now_s table job :
  Worker.query_pending now table = [job] →
  Worker.query_pending now (flush (Worker.mark_processing now_s job) table) = [].
Proof.
  intros Hone. apply query_pending_empty. intros row Hrow.
  unfold flush in Hrow. apply list_elem_of_fmap in Hrow as (r & -> & Hr).
  destruct (decide (id r = id (Worker.mark_processing now_s job)))
    as [Heq|Hne]; [done|].
  destruct (Worker.eligible now r) eqn:Helig; [|done].
  assert (r ∈ Worker.query_pending now table) as Hin.
  { apply list_elem_of_filter. split; [by apply Is_true_true|done]. }
  rewrite Hone in Hin. apply list_elem_of_singleton in Hin. by subst r.
Qed.

(** ** The claim *)


Lemma claim_when_none_eligible now_q now_s table result table' :
  Worker.query_pending now_q table = [] →
  Worker.claim now_q now_s table result table' →
  result = None ∧ table' = table.
Proof.
  intros Hnil Hclaim. inversion Hclaim as [|job Hsel]; subst; [done|].
  apply select_pending_some in Hsel as (Hin & Helig & _).
  rewrite query_pending_empty in Hnil. by rewrite (Hnil job Hin) in Helig.
Qed.

Lemma claim_when_one_eligible now_q now_s table job result table' :
  Worker.query_pending now_q table = [job] →
  Worker.claim now_q now_s table result table' →
  result = Some (Worker.mark_processing now_s job) ∧
  table' = flush (Worker.mark_processing now_s job) table.
Proof.
  intros Hone Hclaim. inversion Hclaim as [Hsel|job0 Hsel]; subst.
  - apply select_pending_none in Hsel. by rewrite Hone in Hsel.
  - destruct Hsel as (rows & [Hperm _] & Hfirst). rewrite Hone in Hperm.
    apply Permutation_singleton_r in Hperm. subst rows.
    by simplify_eq/=.
Qed.

Lemma claim_calls_none_eligible clocks table :
  (∀ t, t ∈ clocks.*1 → Worker.query_pending t table = []) →
  claim_calls clocks table (replicate (length clocks) None) table ∧
  ∀ results table', claim_calls clocks table results table' →
    results = replicate (length clocks) None ∧ table' = table.
Proof.
  induction clocks as [|[now_q now_s] clocks IH]; intros Hnil.
  - split; [constructor|]. intros results table' Hcalls. by inversion Hcalls.
  - assert (Worker.query_pending now_q table = []) as Hq by (apply Hnil; left).
    destruct IH as [IHrun IHall].
    { intros t Ht. apply Hnil. by right. }
    split.
    + econstructor; [|exact IHrun]. apply Worker.claim_none.
      by apply select_pending_none.
    + intros results table' Hcalls.
      inversion Hcalls as [|? ? ? ? r table1 rs ? Hclaim Hrest]; subst.
      destruct (claim_when_none_eligible _ _ _ _ _ Hq Hclaim) as [-> ->].
      destruct (IHall _ _ Hrest) as [-> ->]. done.
Qed.

(** ** The operations as steps between tables *)

Lemma step_add_table config command max_retries backoff_base now table :
  int64 (py_or max_retries (cli.max_retries config)) →
  int64 (py_or backoff_base (cli.backoff_base config)) →
  step table
    (table ++ [new_job (next_id table) command
                 (py_or max_retries (cli.max_retries config))
                 (py_or backoff_base (cli.backoff_base config)) now]).
Proof.
  intros Hmax Hbase.
  eapply (step_add config command max_retries backoff_base now table
            (inr ()) (world (table ++ [_]))).
  rewrite add_command_run. cbv zeta.
  cbn [max_attempts models.backoff_base new_job]. by rewrite decide_True.
Qed.

Lemma step_claim_table now_q now_s table job :
  Worker.select_pending now_q table (Some job) →
  step table (flush (Worker.mark_processing now_s job) table).
Proof. intros Hsel. eapply step_claim. by apply Worker.claim_job. Qed.

Lemma step_outcome_table job run now now' table job' :
  job ∈ table → status job = PROCESSING →
  outcome job run now now' = inr job' →
  step table (flush job' table).
Proof.
  intros Hin Hstatus Hout.
  eapply (step_outcome job run now now' table _ (Build_World _ _)); [done..|].
  rewrite execute_job_run, Hout. reflexivity.
Qed.

(** A call of [_process_jobs] is a claim followed by an outcome, a claim
    alone when [_execute_job] raises, or nothing. *)
Lemma process_jobs_steps now_q now_s now_f now_f' run w w' :
  Worker._process_jobs now_q now_s now_f now_f' run w w' →
  rtc step (db w) (db w').
Proof.
  intros [Hnone|job table r w1 Hclaim Hrun]; [apply rtc_refl|].
  rewrite execute_job_run in Hrun.
  inversion Hclaim as [|job0 Hsel]; subst.
  eapply rtc_l; [by eapply step_claim|].
  destruct (outcome _ run now_f now_f') as [e|job'] eqn:Hout;
    injection Hrun as <- <-; cbn [db]; [apply rtc_refl|].
  apply rtc_once.
  eapply (step_outcome_table (Worker.mark_processing now_s job0) run
            now_f now_f'); [|reflexivity|exact Hout].
  apply select_pending_some in Hsel as (Hin & _ & _).
  unfold flush. apply list_elem_of_fmap. exists job0.
  split; [|done]. by rewrite decide_True.
Qed.

(** What a step does to the table. *)
Lemma step_cases table table' :
  step table table' →
  table' = table ∨
  (∃ i command max_attempts backoff_base now,
     table' = table ++ [new_job i command max_attempts backoff_base now] ∧
     i = next_id table) ∨
  (∃ now job, job ∈ table ∧ status job = PENDING ∧
     table' = flush (Worker.mark_processing now job) table) ∨
  (∃ job job', job ∈ table ∧ status job = PROCESSING ∧
     (∃ run now now', outcome job run now now' = inr job') ∧
     table' = flush job' table) ∨
  (∃ job_ids retry_all,
     table' = foldl (λ table obj, flush obj table) table
                (cli.reset_job <$> filter (retried job_ids retry_all) table)).
Proof.
  intros Hstep. destruct Hstep as
    [config command max_retries backoff_base now table r w Hrun
    |now_q now_s table job table' Hclaim
    |job run now now' table r w Hin Hstatus Hrun
    |job_ids retry_all table r w Hrun].
  - rewrite add_command_run in Hrun. cbv zeta in Hrun.
    destruct (decide _); simplify_eq/=; [|by left].
    right; left. eauto 10.
  - inversion Hclaim as [|job0 Hsel]; subst.
    apply select_pending_some in Hsel as (Hin & Helig & _).
    right; right; left. exists now_s, job0.
    split_and!; [done|by eapply eligible_pending|done].
  - rewrite execute_job_run in Hrun.
    destruct (outcome job run now now') as [e|job'] eqn:Hout;
      simplify_eq/=; [by left|].
    right; right; right; left. exists job, job'. eauto 10.
  - rewrite retry_dlq_run in Hrun.
    destruct (bool_decide (job_ids = []) && negb retry_all);
      simplify_eq/=; [by left|].
    destruct (decide _); simplify_eq/=; [|by left].
    right; right; right; right. eauto.
Qed.

(** ** Invariants of the reachable tables *)

Section job_invariant.
Variable P : Job → Prop.
Hypothesis P_new : ∀ i command max_attempts backoff_base now,
  P (new_job i command max_attempts backoff_base now).
Hypothesis P_claim : ∀ now job,
  P job → status job = PENDING → P (Worker.mark_processing now job).
Hypothesis P_succeeded : ∀ job now,
  P job → status job = PROCESSING → P (succeeded job now).
Hypothesis P_died : ∀ job error now,
  P job → status job = PROCESSING → max_attempts job ≤ attempts job →
  P (died job error now).
Hypothesis P_rescheduled : ∀ job error retry_at,
  P job → status job = PROCESSING → attempts job < max_attempts job →
  P (rescheduled job error retry_at).
Hypothesis P_reset : ∀ job,
  P job → status job = DEAD → P (cli.reset_job job).

Lemma step_Forall table table' :
  step table table' → Forall P table → Forall P table'.
Proof using P_new P_claim P_succeeded P_died P_rescheduled P_reset.
  intros Hstep Htable.
  destruct (step_cases table table' Hstep) as
    [->
    |[(i & command & max_attempts & backoff_base & now & -> & _)
    |[(now & job & Hin & Hstatus & ->)
    |[(job & job' & Hin & Hstatus & (run & now & now' & Hout) & ->)
    |(job_ids & retry_all & ->)]]]].
  - done.
  - apply Forall_app. split; [done|]. constructor; [|done]. apply P_new.
  - apply Forall_flush; [|done]. apply P_claim; [|done].
    rewrite Forall_forall in Htable. by apply Htable.
  - apply Forall_flush; [|done].
    assert (P job) as Hjob by (rewrite Forall_forall in Htable; by apply Htable).
    apply outcome_cases in Hout
      as [->|[(error & t & Hmax & ->)|(error & t & Hless & ->)]].
    + by apply P_succeeded.
    + by apply P_died.
    + by apply P_rescheduled.
  - apply Forall_flush_all; [|done]. apply Forall_fmap.
    apply Forall_forall. intros job Hjob.
    apply list_elem_of_filter in Hjob as [[Hdead _] Hin]. simpl.
    apply P_reset; [|done]. rewrite Forall_forall in Htable. by apply Htable.
Qed.

Lemma reachable_Forall table : reachable table → Forall P table.
Proof using P_new P_claim P_succeeded P_died P_rescheduled P_reset.
  unfold reachable. intros Hreach.
  eapply (rtc_ind_r (λ t, Forall P t) []); [constructor| |exact Hreach].
  intros t t' _ Hstep IH. by eapply step_Forall.
Qed.
End job_invariant.

Lemma reachable_job_ok table : reachable table → Forall job_ok table.
Proof.
  apply reachable_Forall; unfold job_ok.
  - intros. simpl. split_and!; [lia|done|done|done].
  - intros now job (Hatt & _ & _ & Hcompl) Hstatus. simpl.
    split_and!; [lia|lia|done|]. intros _. apply Hcompl. by left.
  - intros job now (Hatt & _ & _ & Hcompl) Hstatus. simpl.
    split_and!; [done|done|done|]. by intros [?|?].
  - intros job error now (Hatt & _ & _ & Hcompl) Hstatus Hmax. simpl.
    split_and!; [done|done| |by intros [?|?]].
    intros _. split; [done|by eexists].
  - intros job error t (Hatt & _ & _ & Hcompl) Hstatus Hless. simpl.
    split_and!; [done|done|done|]. intros _. apply Hcompl. by right.
  - intros job _ _. simpl. split_and!; [lia|done|done|done].
Qed.

Lemma reachable_primary_key table : reachable table → primary_key table.
Proof.
  unfold reachable. intros Hreach.
  eapply (rtc_ind_r (λ t, primary_key t) []);
    [apply NoDup_nil_2| |exact Hreach].
  clear table Hreach. intros table table' _ Hstep IH.
  destruct (step_cases table table' Hstep) as
    [->
    |[(i & command & max_attempts & backoff_base & now & -> & ->)
    |[(now & job & Hin & Hstatus & ->)
    |[(job & job' & Hin & Hstatus & _ & ->)
    |(job_ids & retry_all & ->)]]]].
  - done.
  - by apply (primary_key_insert_row (λ i, new_job i _ _ _ _)).
  - by apply primary_key_flush.
  - by apply primary_key_flush.
  - by apply primary_key_flush_all.
Qed.

Lemma reachable_step table table' :
  reachable table → rtc step table table' → reachable table'.
Proof. unfold reachable. intros. by etrans. Qed.

(** Tables of the examples. *)

Lemma sample_reachable : reachable [sample_job].
Proof.
  apply rtc_once.
  apply (step_add_table cli.DEFAULT_CONFIG "exit 1" None None 1000 []);
    apply (bool_decide_unpack _); vm_compute; exact I.
Qed.

Lemma sample_claim_step :
  step [sample_job] [Worker.mark_processing 2000 sample_job].
Proof.
  apply (step_claim_table 2000 2000 [sample_job] sample_job).
  by apply select_pending_singleton.
Qed.

Lemma sample_claimed_reachable :
  reachable [Worker.mark_processing 2000 sample_job].
Proof.
  eapply reachable_step; [apply sample_reachable|].
  apply rtc_once, sample_claim_step.
Qed.

Lemma died_job_reachable : reachable [died_job].
Proof.
  unfold reachable.
  eapply rtc_l.
  { apply (step_add_table cli.DEFAULT_CONFIG "exit 1" (Some 1) None 1000 []);
      apply (bool_decide_unpack _); vm_compute; exact I. }
  eapply rtc_l.
  { apply (step_claim_table 2000 2000 [new_job 1 "exit 1" 1 2 1000]
             (new_job 1 "exit 1" 1 2 1000)).
    by apply select_pending_singleton. }
  eapply rtc_l; [|apply rtc_refl].
  apply (step_outcome_table
           (Worker.mark_processing 2000 (new_job 1 "exit 1" 1 2 1000))
           (Exits "" "" 1) 3000 3000
           [Worker.mark_processing 2000 (new_job 1 "exit 1" 1 2 1000)]
           died_job).
  - apply list_elem_of_singleton. reflexivity.
  - reflexivity.
  - reflexivity.
Qed.

Lemma tie_table_reachable : reachable [tie_first; tie_second].
Proof.
  unfold reachable.
  eapply rtc_l.
  { apply (step_add_table cli.DEFAULT_CONFIG "echo a" None None 1000 []);
      apply (bool_decide_unpack _); vm_compute; exact I. }
  eapply rtc_l; [|apply rtc_refl].
  apply (step_add_table cli.DEFAULT_CONFIG "echo b" None None 1000 [tie_first]);
    apply (bool_decide_unpack _); vm_compute; exact I.
Qed.

Lemma huge_claimed_reachable : reachable [huge_claimed].
Proof.
  unfold reachable.
  eapply rtc_l.
  { apply (step_add_table cli.DEFAULT_CONFIG "exit 1" None (Some 10000000000)
             63929304000000000 []); apply (bool_decide_unpack _); vm_compute; exact I. }
  eapply rtc_l; [|apply rtc_refl].
  apply (step_claim_table 63929304001000000 63929304001000000
           [huge_job] huge_job).
  by apply select_pending_singleton.
Qed.
(** ** The claim protocol *)

(** C1, as it holds: when the K >= 1 callers of the claim run one after
    the other on a table where, at the clock of every call, [job] is the
    only eligible job, the first call returns [job], marked PROCESSING
    with [attempts] incremented and [started_at] set, and every other
    call returns none; no other outcome is possible. *)
Theorem serial_claims_one_receiver table job now_q now_s clocks :
  (∀ t, t ∈ now_q :: clocks.*1 → Worker.query_pending t table = [job]) →
  let claimed := Worker.mark_processing now_s job in
  status claimed = PROCESSING ∧
  attempts claimed = attempts job + 1 ∧
  started_at claimed = Some now_s ∧
  claim_calls ((now_q, now_s) :: clocks) table
    (Some claimed :: replicate (length clocks) None) (flush claimed table) ∧
  ∀ results table',
    claim_calls ((now_q, now_s) :: clocks) table results table' →
    results = Some claimed :: replicate (length clocks) None ∧
    table' = flush claimed table.
Proof.
  intros Hone claimed.
  assert (Worker.query_pending now_q table = [job]) as Hq by (apply Hone; left).
  destruct (claim_calls_none_eligible clocks (flush claimed table))
    as [Hrun Hall].
  { intros t Ht. apply query_pending_after_claim. apply Hone. by right. }
  split_and!; [done|done|done| |].
  - econstructor; [|exact Hrun]. apply Worker.claim_job.
    by apply select_pending_singleton.
  - intros results table' Hcalls.
    inversion Hcalls as [|? ? ? ? r table1 rs ? Hclaim Hrest]; subst.
    destruct (claim_when_one_eligible _ _ _ _ _ _ Hq Hclaim) as [-> ->].
    destruct (Hall _ _ Hrest) as [-> ->]. done.
Qed.

Lemma serial_claims_one_receiver_witness :
  (∀ t, t ∈ [2000; 2002; 2004] → Worker.query_pending t [sample_job] = [sample_job]) ∧
  claim_calls [(2000, 2001); (2002, 2003); (2004, 2005)] [sample_job]
    [Some (Worker.mark_processing 2001 sample_job); None; None]
    [Worker.mark_processing 2001 sample_job].
Proof.
  split.
  - intros t _. reflexivity.
  - apply (serial_claims_one_receiver [sample_job] sample_job 2000 2001
             [(2002, 2003); (2004, 2005)]).
    intros t _. reflexivity.
Defined.

(** C1, as stated, fails: two callers run at the same time on a table
    whose only eligible job is [sample_job]; both make their query before
    either commits, and both are handed the job. *)
Lemma concurrent_claims_two_receivers :
  (∀ now, Worker.query_pending now [sample_job] = [sample_job]) ∧
  rtc claim_step
    ([sample_job], [Ready; Ready])
    ([Worker.mark_processing 2003 sample_job],
     [Returned (Some (Worker.mark_processing 2002 sample_job));
      Returned (Some (Worker.mark_processing 2003 sample_job))]).
Proof.
  split; [done|].
  eapply rtc_l.
  { apply (claim_step_query 0 2000 [sample_job] [Ready; Ready]
             (Some sample_job)); [done|]. by apply select_pending_singleton. }
  eapply rtc_l.
  { apply (claim_step_query 1 2001 [sample_job] [Selected sample_job; Ready]
             (Some sample_job)); [done|]. by apply select_pending_singleton. }
  eapply rtc_l.
  { apply (claim_step_commit 0 2002 [sample_job]
             [Selected sample_job; Selected sample_job] sample_job). done. }
  eapply rtc_l; [|apply rtc_refl].
  apply (claim_step_commit 1 2003 [Worker.mark_processing 2002 sample_job]
           [Returned (Some (Worker.mark_processing 2002 sample_job));
            Selected sample_job] sample_job). done.
Qed.



(** ** The retry policy *)

(** C3, as it holds: for a job in PROCESSING of a reachable table with
    [attempts < max_attempts], when Python can hold the delay of
    [backoff_base ** attempts * 60] seconds and the date that long after
    [now], [_handle_failure] returns normally and records the job with
    status PENDING, [error] the failure message, [completed_at] NULL and
    [next_retry_at] that date; base 2 gives now + 120 s at attempts 1 and
    now + 480 s at attempts 3. *)
Theorem handle_failure_schedules_retry table job error now :
  reachable table → job ∈ table → status job = PROCESSING →
  attempts job < max_attempts job →
  representable now (backoff_base job ^ attempts job * 60) →
  ∃ job',
    Worker._handle_failure job error now (world table) =
      (inr job', world (flush job' table)) ∧
    job' ∈ flush job' table ∧
    status job' = PENDING ∧
    models.error job' = Some error ∧
    completed_at job' = None ∧
    1 ≤ attempts job ∧
    next_retry_at job' =
      Some (now + seconds (backoff_base job ^ attempts job * 60)) ∧
    (backoff_base job = 2 → attempts job = 1 →
       next_retry_at job' = Some (now + seconds 120)) ∧
    (backoff_base job = 2 → attempts job = 3 →
       next_retry_at job' = Some (now + seconds 480)).
Proof.
  intros Hreach Hin Hstatus Hless Hrep.
  pose proof (reachable_job_ok table Hreach) as Hok.
  rewrite Forall_forall in Hok.
  destruct (Hok job Hin) as (_ & Hpos & _ & Hcompl).
  eexists. rewrite handle_failure_run, failed_retry by done.
  split; [reflexivity|]. cbn.
  split_and!; try done.
  - unfold flush. apply list_elem_of_fmap. exists job.
    split; [|done]. by rewrite decide_True.
  - apply Hcompl. by right.
  - by apply Hpos.
  - by intros -> ->.
  - by intros -> ->.
Qed.

Lemma handle_failure_schedules_retry_witness :
  reachable [Worker.mark_processing 2000 sample_job] ∧
  representable 3000 (2 ^ 1 * 60) ∧
  ∃ job',
    Worker._handle_failure (Worker.mark_processing 2000 sample_job) "boom" 3000
      (world [Worker.mark_processing 2000 sample_job]) =
      (inr job', world (flush job' [Worker.mark_processing 2000 sample_job])) ∧
    status job' = PENDING ∧
    next_retry_at job' = Some (3000 + seconds 120).
Proof.
  assert (representable 3000 (2 ^ 1 * 60)) as Hrep.
  { apply (bool_decide_unpack _). vm_compute. exact I. }
  split; [apply sample_claimed_reachable|]. split; [exact Hrep|].
  destruct (handle_failure_schedules_retry
              [Worker.mark_processing 2000 sample_job]
              (Worker.mark_processing 2000 sample_job) "boom" 3000)
    as (job' & Hrun & _ & Hstatus & _ & _ & _ & _ & H120 & _).
  - apply sample_claimed_reachable.
  - apply list_elem_of_singleton. reflexivity.
  - reflexivity.
  - vm_compute. reflexivity.
  - exact Hrep.
  - exists job'. split_and!; [exact Hrun|exact Hstatus|].
    apply H120; reflexivity.
Defined.

(** C3, as stated, fails: a job submitted with
    [--backoff-base 10000000000] is claimed and its command exits with
    code 1; it has [attempts = 1 < 3 = max_attempts], but the date of the
    retry, some 19000 years ahead, is none Python can hold.
    [_handle_failure] raises [OverflowError], in [_execute_job] a second
    time from the handler of [except Exception], and the row stays as the
    claim left it: PROCESSING, with no [error] and no [next_retry_at]. *)
Lemma handle_failure_overflow_keeps_processing :
  reachable [huge_claimed] ∧
  attempts huge_claimed = 1 ∧ max_attempts huge_claimed = 3 ∧
  Worker._handle_failure huge_claimed "Command failed with return code 1"
    63929304002000000 (world [huge_claimed]) =
    (inl (OverflowError "date value out of range"), world [huge_claimed]) ∧
  Worker._execute_job huge_claimed (Exits "" "" 1)
    63929304002000000 63929304002000000 (world [huge_claimed]) =
    (inl (OverflowError "date value out of range"),
     {| db := [huge_claimed]; procs := [Spawn "exit 1"] |}) ∧
  status huge_claimed = PROCESSING ∧
  error huge_claimed = None ∧
  next_retry_at huge_claimed = None.
Proof.
  split_and!; try reflexivity. apply huge_claimed_reachable.
Qed.

(** C4: for a job with [attempts >= max_attempts], [_handle_failure]
    returns normally and records the job with status DEAD,
    [completed_at = now] and [error] the failure message.  So for a job
    submitted with [max_attempts = 3], whatever the backoff base, the
    clocks and the messages are: when its first, second and third attempt
    fail and are recorded, it is PENDING after the first and the second
    and DEAD after the third; and the three failures are recorded
    whenever Python can hold the dates of the two retries. *)
Theorem handle_failure_moves_to_dead :
  (∀ job error now w,
     max_attempts job ≤ attempts job →
     ∃ job',
       Worker._handle_failure job error now w =
         (inr job', {| db := flush job' (db w); procs := procs w |}) ∧
       status job' = DEAD ∧
       completed_at job' = Some now ∧
       models.error job' = Some error) ∧
  (∀ job0 s1 f1 e1 s2 f2 e2 s3 f3 e3 w,
     attempts job0 = 0 → max_attempts job0 = 3 →
     let three_attempts : M (Job * Job * Job) :=
       job1 ← failing_attempt s1 f1 e1 job0;
       job2 ← failing_attempt s2 f2 e2 job1;
       job3 ← failing_attempt s3 f3 e3 job2;
       mret (job1, job2, job3) in
     (∀ job1 job2 job3 w',
        three_attempts w = (inr (job1, job2, job3), w') →
        status job1 = PENDING ∧ status job2 = PENDING ∧
        status job3 = DEAD ∧ attempts job3 = 3 ∧
        completed_at job3 = Some f3 ∧ models.error job3 = Some e3) ∧
     (representable f1 (backoff_base job0 ^ 1 * 60) →
      representable f2 (backoff_base job0 ^ 2 * 60) →
      ∃ job1 job2 job3 w',
        three_attempts w = (inr (job1, job2, job3), w'))).
Proof.
  split.
  - intros job error now w Hmax.
    exists (died job error now). by rewrite handle_failure_run, failed_dead.
  - intros job0 s1 f1 e1 s2 f2 e2 s3 f3 e3 w Hatt Hmax0. cbv zeta. split.
    + intros job1 job2 job3 w'. step_M.
      rewrite failing_attempt_run.
      destruct (failed _ e1 f1) as [e|j1] eqn:H1; [done|].
      rewrite failing_attempt_run.
      destruct (failed _ e2 f2) as [e|j2] eqn:H2; [done|].
      rewrite failing_attempt_run.
      destruct (failed _ e3 f3) as [e|j3] eqn:H3; [done|].
      intros [= -> -> -> <-].
      apply failing_attempt_counters in H1 as (Ha1 & Hm1 & _ & Hp1 & _).
      apply failing_attempt_counters in H2 as (Ha2 & Hm2 & _ & Hp2 & _).
      apply failing_attempt_counters in H3 as (Ha3 & Hm3 & _ & _ & Hd3).
      destruct Hd3 as (? & ? & ?); [lia|].
      split_and!; [apply Hp1; lia|apply Hp2; lia|done|lia|done|done].
    + intros Hrep1 Hrep2. step_M.
      rewrite failing_attempt_run, failed_retry;
        [|cbn; lia|cbn; by rewrite Hatt].
      rewrite failing_attempt_run, failed_retry;
        [|cbn; lia|cbn; by rewrite Hatt].
      rewrite failing_attempt_run, failed_dead by (cbn; lia).
      eauto.
Qed.

Lemma handle_failure_moves_to_dead_witness :
  (max_attempts exhausted_job ≤ attempts exhausted_job ∧
   ∃ job',
     Worker._handle_failure exhausted_job "third" 4100 (world [exhausted_job]) =
       (inr job', world [job']) ∧
     status job' = DEAD) ∧
  ∃ job1 job2 job3 w',
    (job1 ← failing_attempt 2000 2100 "first" sample_job;
     job2 ← failing_attempt 3000 3100 "second" job1;
     job3 ← failing_attempt 4000 4100 "third" job2;
     mret (job1, job2, job3)) (world [sample_job]) =
      (inr (job1, job2, job3), w') ∧
    status job3 = DEAD.
Proof.
  destruct handle_failure_moves_to_dead as [Hdead Hscenario].
  split.
  - assert (max_attempts exhausted_job ≤ attempts exhausted_job) as Hmax.
    { vm_compute. discriminate. }
    split; [exact Hmax|].
    destruct (Hdead exhausted_job "third"%string 4100 (world [exhausted_job]) Hmax)
      as (job' & Hrun & Hstatus & _).
    exists job'. split; [|exact Hstatus].
    rewrite Hrun. vm_compute in Hrun. injection Hrun as <-. reflexivity.
  - destruct (Hscenario sample_job 2000 2100 "first"%string
                3000 3100 "second"%string 4000 4100 "third"%string
                (world [sample_job]) eq_refl eq_refl) as [Hdead3 Hruns].
    destruct Hruns as (job1 & job2 & job3 & w' & Hrun).
    + apply (bool_decide_unpack _). vm_compute. exact I.
    + apply (bool_decide_unpack _). vm_compute. exact I.
    + exists job1, job2, job3, w'. split; [exact Hrun|].
      destruct (Hdead3 job1 job2 job3 w' Hrun) as (_ & _ & Hstatus & _).
      exact Hstatus.
Defined.

(** ** The dead-letter queue *)



(** ** Submission *)

(** C6, at two non-positive values of [--max-retries]: [add_command]
    returns normally and a job is stored, with [max_attempts = -1] for -1
    and with the configured 3 for 0. *)
Theorem add_command_stores_nonpositive_max_retries :
  cli.add_command cli.DEFAULT_CONFIG "exit 1" (Some (-1)) None 1000 (world []) =
    (inr (), world [new_job 1 "exit 1" (-1) 2 1000]) ∧
  cli.add_command cli.DEFAULT_CONFIG "exit 1" (Some 0) None 1000 (world []) =
    (inr (), world [new_job 1 "exit 1" 3 2 1000]).
Proof. split; reflexivity. Qed.




(** ** The executor *)




(** ** The dead-letter invariant *)

(** C8: in every table the operations (submission, claim, outcome of an
    execution, retry of dead jobs) build from the empty one, a job with
    status DEAD has [attempts >= max_attempts] and a [completed_at].
    This holds for every [max_attempts] a submission stores, positive or
    not. *)
Theorem dead_jobs_exhausted_their_attempts table :
  reachable table →
  ∀ job, job ∈ table → status job = DEAD →
    (attempts job >= max_attempts job)%Z ∧ is_Some (completed_at job).
Proof.
  intros Hreach job Hin Hdead.
  pose proof (reachable_job_ok table Hreach) as Hok.
  rewrite Forall_forall in Hok.
  destruct (Hok job Hin) as (_ & _ & Hinv & _).
  destruct (Hinv Hdead) as [Hmax Hcompl]. split; [lia|done].
Qed.

Lemma dead_jobs_exhausted_their_attempts_witness :
  reachable [died_job] ∧
  status died_job = DEAD ∧
  (attempts died_job >= max_attempts died_job)%Z ∧
  is_Some (completed_at died_job).
Proof.
  split; [apply died_job_reachable|].
  split; [reflexivity|].
  apply (dead_jobs_exhausted_their_attempts [died_job]).
  - apply died_job_reachable.
  - apply list_elem_of_singleton. reflexivity.
  - reflexivity.
Defined.

(** ** The constructor of the worker *)

(** C9: [Worker(worker_id, max_jobs)] with no [shutdown_event] raises
    [NameError] for the name [threading], which is not bound at the top
    level of worker.py; with an event the constructor returns the
    worker. *)
Theorem worker_init_without_event_raises_NameError worker_id max_jobs :
  Worker.__init__ worker_id max_jobs None = inl (NameError "threading") ∧
  (("threading" : string) ∉ Worker.module_globals) ∧
  ∀ ev, Worker.__init__ worker_id max_jobs (Some ev) =
        inr {| Worker.worker_id := worker_id; Worker.max_jobs := max_jobs;
               Worker.shutdown_event := ev; Worker.current_job := None;
               Worker.running := false |}.
Proof.
  split_and!.
  - reflexivity.
  - apply (bool_decide_unpack _). vm_compute. exact I.
  - reflexivity.
Qed.

(** ** Rows under one operation

    The operations of [step] are taken one at a time, each on the rows as
    they are when it runs; callers that overlap are the subject of
    [claim_step]. *)

(** On a table with a primary key, writing back a changed copy of a row
    changes that row only. *)
Lemma flush_row_lookup job job' table i row :
  primary_key table → job ∈ table → id job' = id job →
  table !! i = Some row →
  flush job' table !! i = Some (if decide (row = job) then job' else row).
Proof.
  intros Hkey Hin Hid Hrow. unfold flush.
  rewrite list_lookup_fmap, Hrow. cbn. f_equal.
  assert (row ∈ table) as Hrow' by (by eapply list_elem_of_lookup_2).
  rewrite Hid.
  destruct (decide (id row = id job)) as [Heq|Hne].
  - assert (row = job) as -> by (by eapply primary_key_inj).
    by rewrite decide_True.
  - rewrite decide_False; [done|]. by intros ->.
Qed.

Lemma step_rows table table' :
  primary_key table → step table table' →
  ∀ i job, table !! i = Some job →
    ∃ job', table' !! i = Some job' ∧ row_step job job'.
Proof.
  intros Hkey Hstep i row Hrow.
  destruct (step_cases table table' Hstep) as
    [->
    |[(k & command & max_attempts & backoff_base & now & -> & _)
    |[(now & job & Hin & Hstatus & ->)
    |[(job & job' & Hin & Hstatus & (run & now & now' & Hout) & ->)
    |(job_ids & retry_all & ->)]]]].
  - exists row. split; [done|constructor].
  - exists row. split; [|constructor]. by apply lookup_app_l_Some.
  - rewrite (flush_row_lookup job _ table i row) by done.
    eexists. split; [done|]. destruct (decide (row = job)) as [->|_].
    + by constructor.
    + constructor.
  - rewrite (flush_row_lookup job job' table i row)
      by (done || by eapply outcome_id).
    eexists. split; [done|]. destruct (decide (row = job)) as [->|_].
    + apply outcome_cases in Hout
        as [->|[(error & t & Hmax & ->)|(error & t & Hless & ->)]];
        by constructor.
    + constructor.
  - rewrite flush_all_reset by done. rewrite list_lookup_fmap, Hrow. cbn.
    eexists. split; [done|].
    destruct (decide (retried job_ids retry_all row)) as [[Hdead _]|_].
    + by constructor.
    + constructor.
Qed.

Lemma row_step_status job job' :
  row_step job job' → status_transition (status job) (status job').
Proof.
  intros [job0|now job0 Hs|now job0 Hs|error now job0 Hs _
         |error t job0 Hs _|job0 Hs]; unfold status_transition; cbn;
    rewrite ?Hs; auto 10.
Qed.

Lemma row_step_identity job job' : row_step job job' → same_identity job job'.
Proof. by intros []. Qed.

(** X1, the life of a job: an operation on a reachable table keeps every
    row in its place, and the status of a row either stays or moves
    PENDING to PROCESSING, PROCESSING to COMPLETED, PENDING or DEAD, or
    DEAD to PENDING. *)
Theorem status_follows_state_machine table table' :
  reachable table → step table table' →
  ∀ i job, table !! i = Some job →
    ∃ job', table' !! i = Some job' ∧
            status_transition (status job) (status job').
Proof.
  intros Hreach Hstep i job Hjob.
  destruct (step_rows table table' (reachable_primary_key _ Hreach) Hstep
              i job Hjob) as (job' & Hjob' & Hrow).
  exists job'. split; [done|]. by apply row_step_status.
Qed.

Lemma same_identity_trans a b c :
  same_identity a b → same_identity b c → same_identity a c.
Proof.
  unfold same_identity. intros (?&?&?&?&?) (?&?&?&?&?).
  split_and!; congruence.
Qed.

(** X2: over any number of operations on a reachable table no row is
    removed or moved, and a row keeps its [id], [command], [created_at],
    [max_attempts] and [backoff_base]. *)
Theorem rows_keep_their_identity table table' :
  reachable table → rtc step table table' →
  ∀ i job, table !! i = Some job →
    ∃ job', table' !! i = Some job' ∧ same_identity job job'.
Proof.
  intros Hreach Hsteps. induction Hsteps as [table|table table1 table2 Hstep Hsteps IH];
    intros i job Hjob.
  - exists job. split; [done|]. by unfold same_identity.
  - destruct (step_rows table table1 (reachable_primary_key _ Hreach) Hstep
                i job Hjob) as (job1 & Hjob1 & Hrow).
    destruct (IH (reachable_step _ _ Hreach (rtc_once _ _ Hstep)) i job1 Hjob1)
      as (job2 & Hjob2 & Hid).
    exists job2. split; [done|].
    eapply same_identity_trans; [|done]. by apply row_step_identity.
Qed.

(** X3: a row with status COMPLETED of a reachable table is never
    changed again, whatever operations follow. *)
Theorem completed_rows_never_change table table' :
  reachable table → rtc step table table' →
  ∀ i job, table !! i = Some job → status job = COMPLETED →
    table' !! i = Some job.
Proof.
  intros Hreach Hsteps. induction Hsteps as [table|table table1 table2 Hstep Hsteps IH];
    intros i job Hjob Hdone; [done|].
  destruct (step_rows table table1 (reachable_primary_key _ Hreach) Hstep
              i job Hjob) as (job1 & Hjob1 & Hrow).
  assert (job1 = job) as ->.
  { inversion Hrow; subst; congruence. }
  by apply (IH (reachable_step _ _ Hreach (rtc_once _ _ Hstep))).
Qed.

(** X4: an operation on a reachable table leaves a row with status DEAD
    as it is or replaces it by its reset, the work of [retry_dlq]. *)
Theorem dead_rows_change_only_by_reset table table' :
  reachable table → step table table' →
  ∀ i job, table !! i = Some job → status job = DEAD →
    table' !! i = Some job ∨ table' !! i = Some (cli.reset_job job).
Proof.
  intros Hreach Hstep i job Hjob Hdead.
  destruct (step_rows table table' (reachable_primary_key _ Hreach) Hstep
              i job Hjob) as (job' & Hjob' & Hrow).
  inversion Hrow; subst; try congruence; auto.
Qed.

Lemma reachable_attempts_bounded table :
  reachable table → Forall attempts_bounded table.
Proof.
  apply reachable_Forall; unfold attempts_bounded.
  - intros. cbn. split_and!; try done; intros; split_and!; try done; lia.
  - intros now job (H0 & H1 & Hpos & Hneg) Hs. cbn.
    split_and!; [lia|lia| |].
    + intros Hmax. destruct (Hpos Hmax) as (_ & Hlt & _).
      specialize (Hlt Hs). split_and!; [lia|done|done].
    + intros Hmax. destruct (Hneg Hmax) as (_ & Hzero).
      specialize (Hzero Hs). split; [lia|done].
  - intros job now (H0 & H1 & Hpos & Hneg) Hs. cbn.
    assert (1 ≤ attempts job) as Hone by (apply H1; congruence).
    split_and!; [done|done| |].
    + intros Hmax. destruct (Hpos Hmax) as (? & _). by split_and!.
    + intros Hmax. destruct (Hneg Hmax) as (? & _). by split.
  - intros job error now (H0 & H1 & Hpos & Hneg) Hs Hge. cbn.
    assert (1 ≤ attempts job) as Hone by (apply H1; congruence).
    split_and!; [done|done| |].
    + intros Hmax. destruct (Hpos Hmax) as (? & _).
      split_and!; [done|done|]. intros _. lia.
    + intros Hmax. destruct (Hneg Hmax) as (? & _). by split.
  - intros job error t (H0 & H1 & Hpos & Hneg) Hs Hlt. cbn.
    assert (1 ≤ attempts job) as Hone by (apply H1; congruence).
    split_and!; [done|done| |].
    + intros Hmax. split_and!; [lia| |done]. intros _. lia.
    + intros Hmax. lia.
  - intros job _ _. cbn. split_and!; try done; intros; split_and!; try done; lia.
Qed.

(** X5: in a reachable table a job with [max_attempts >= 1] has
    [0 <= attempts <= max_attempts], with equality when it is DEAD; a job
    with [max_attempts <= 0] has at most one attempt, and exactly one
    when it is DEAD. *)
Theorem attempts_never_exceed_the_limit table job :
  reachable table → job ∈ table →
  (1 ≤ max_attempts job →
     0 ≤ attempts job ≤ max_attempts job ∧
     (status job = DEAD → attempts job = max_attempts job)) ∧
  (max_attempts job ≤ 0 →
     0 ≤ attempts job ≤ 1 ∧ (status job = DEAD → attempts job = 1)).
Proof.
  intros Hreach Hin.
  pose proof (reachable_attempts_bounded table Hreach) as Hb.
  rewrite Forall_forall in Hb.
  destruct (Hb job Hin) as (H0 & H1 & Hpos & Hneg).
  split.
  - intros Hmax. destruct (Hpos Hmax) as (? & _ & ?). split; [lia|done].
  - intros Hmax. destruct (Hneg Hmax) as (? & _). split; [lia|].
    intros Hd. assert (1 ≤ attempts job) by (apply H1; congruence). lia.
Qed.

(** ** Keys *)

Lemma max_id_bound table m :
  0 ≤ m → Forall (λ row, id row ≤ m) table →
  foldr (λ j k, Z.max (id j) k) 0 table ≤ m.
Proof.
  intros Hm Hall. induction Hall as [|row rows Hrow _ IH]; simpl; lia.
Qed.

Lemma next_id_consecutive table :
  (∀ i job, table !! i = Some job → id job = Z.of_nat i + 1) →
  next_id table = Z.of_nat (length table) + 1.
Proof.
  intros Hids. unfold next_id.
  assert (foldr (λ j k, Z.max (id j) k) 0 table ≤ Z.of_nat (length table))
    as Hupper.
  { apply max_id_bound; [lia|]. apply Forall_lookup. intros i job Hjob.
    rewrite (Hids i job Hjob). apply lookup_lt_Some in Hjob. lia. }
  destruct (decide (table = [])) as [->|Hne]; [done|].
  destruct (last table) as [job|] eqn:Hlast;
    [|by apply last_None in Hlast].
  pose proof (next_id_fresh table) as Hfresh. rewrite Forall_forall in Hfresh.
  rewrite last_lookup in Hlast.
  specialize (Hfresh job (list_elem_of_lookup_2 _ _ _ Hlast)).
  rewrite (Hids _ _ Hlast) in Hfresh. unfold next_id in Hfresh.
  destruct table; [done|]. simpl in *. lia.
Qed.

(** X6: in a reachable table the row at position [i] (from 0) has
    [id = i + 1]: the keys count the submissions, in their order. *)
Theorem ids_count_the_submissions table :
  reachable table →
  ∀ i job, table !! i = Some job → id job = Z.of_nat i + 1.
Proof.
  unfold reachable. intros Hreach.
  eapply (rtc_ind_r (λ t, ∀ i job, t !! i = Some job → id job = Z.of_nat i + 1) []);
    [done| |exact Hreach].
  clear table Hreach. intros table table' Hreach Hstep IH i job' Hjob'.
  assert (∀ obj, flush obj table !! i = Some job' →
            id job' = Z.of_nat i + 1) as Hflush.
  { intros obj Hobj.
    assert ((id <$> flush obj table) !! i = Some (id job')) as Hid
      by (by rewrite list_lookup_fmap, Hobj).
    rewrite flush_ids, list_lookup_fmap in Hid.
    destruct (table !! i) as [row|] eqn:Hrow; simplify_eq/=.
    rewrite <- Hid. by apply IH. }
  destruct (step_cases table table' Hstep) as
    [->
    |[(k & command & max_attempts & backoff_base & now & -> & ->)
    |[(now & job & Hin & Hstatus & ->)
    |[(job & job1 & Hin & Hstatus & _ & ->)
    |(job_ids & retry_all & ->)]]]].
  - by apply IH.
  - apply lookup_app_Some in Hjob' as [Hold|[Hlen Hnew]]; [by apply IH|].
    apply list_lookup_singleton_Some in Hnew as [Hi <-]. cbn.
    rewrite (next_id_consecutive table IH). lia.
  - by eapply Hflush.
  - by eapply Hflush.
  - assert ((id <$> foldl (λ table obj, flush obj table) table
               (cli.reset_job <$> filter (retried job_ids retry_all) table)) !! i
            = Some (id job')) as Hid by (by rewrite list_lookup_fmap, Hjob').
    rewrite flush_all_ids, list_lookup_fmap in Hid.
    destruct (table !! i) as [row|] eqn:Hrow; simplify_eq/=.
    rewrite <- Hid. by apply IH.
Qed.

(** ** Backoff *)

(** X7: after a failure with [0 <= attempts < max_attempts] whose date
    of retry, [now + timedelta(seconds = backoff_base ** attempts * 60)],
    Python can hold, the job is eligible exactly at the clocks from that
    date on, and no claim whose query reads an earlier clock returns
    it. *)
Theorem failed_job_waits_for_its_backoff table job error now :
  0 ≤ attempts job → attempts job < max_attempts job →
  representable now (backoff_base job ^ attempts job * 60) →
  ∃ job' retry_at,
    Worker._handle_failure job error now (world table) =
      (inr job', world (flush job' table)) ∧
    retry_at = now + seconds (backoff_base job ^ attempts job * 60) ∧
    (∀ now_q, Worker.eligible now_q job' = bool_decide (retry_at ≤ now_q)) ∧
    ∀ now_q now_s claimed table',
      now_q < retry_at →
      Worker.claim now_q now_s (flush job' table) (Some claimed) table' →
      id claimed ≠ id job.
Proof.
  intros _ Hless Hrep. eexists _, _.
  rewrite handle_failure_run, failed_retry by done.
  split_and!; [done|reflexivity|done|].
  intros now_q now_s claimed table' Hearly Hclaim Hid.
  inversion Hclaim as [|job0 Hsel]; subst.
  apply select_pending_some in Hsel as (Hin & Helig & _).
  unfold flush in Hin. apply list_elem_of_fmap in Hin as (row & Hrow & _).
  cbn in Hid.
  destruct (decide (id row = id (rescheduled job error _))) as [Heq|Hne].
  - subst job0. cbn in Helig. apply bool_decide_eq_true in Helig. lia.
  - subst job0. by apply Hne.
Qed.

(** ** Success *)

(** X8: a job that fails once, with attempts left and a date of retry
    Python can hold, and then exits with code 0 is recorded COMPLETED
    with [completed_at] set and two attempts more than before, and it
    keeps the [error] and the [next_retry_at] of its failure: success
    clears neither. *)
Theorem success_keeps_the_last_error job0 s1 f1 e1 s2 stdout stderr now now'
    w :
  0 ≤ attempts job0 → attempts job0 + 1 < max_attempts job0 →
  representable f1 (backoff_base job0 ^ (attempts job0 + 1) * 60) →
  ∃ job1 job2 w',
    (job1 ← failing_attempt s1 f1 e1 job0;
     job2 ← (let job := Worker.mark_processing s2 job1 in
             session_commit job;;
             Worker._execute_job job (Exits stdout stderr 0) now now');
     mret (job1, job2)) w = (inr (job1, job2), w') ∧
    status job1 = PENDING ∧
    status job2 = COMPLETED ∧
    completed_at job2 = Some now ∧
    attempts job2 = attempts job0 + 2 ∧
    error job2 = Some e1 ∧
    next_retry_at job2 = next_retry_at job1 ∧
    next_retry_at job2 =
      Some (f1 + seconds (backoff_base job0 ^ (attempts job0 + 1) * 60)).
Proof.
  intros _ Hless Hrep. step_M.
  rewrite failing_attempt_run, failed_retry by (cbn; (lia || done)).
  cbv zeta. step_M. rewrite execute_job_run. unfold outcome.
  rewrite decide_True by done.
  do 3 eexists. split; [reflexivity|]. cbn.
  split_and!; try done. lia.
Qed.

(** ** The loop of the worker *)

Lemma flush_flush a b table :
  id a = id b → flush a (flush b table) = flush a table.
Proof.
  intros Hid. unfold flush. rewrite <- list_fmap_compose.
  apply list_fmap_ext. intros i row _. cbn.
  destruct (decide (id row = id b)) as [Heq|Hne].
  - by rewrite decide_True, decide_True by congruence.
  - by rewrite (decide_False (P := id row = id a)) by congruence.
Qed.

Lemma outcome_not_processing job run now now' job' :
  outcome job run now now' = inr job' → status job' ≠ PROCESSING.
Proof.
  intros [->|[(error & t & _ & ->)|(error & t & _ & ->)]]%outcome_cases; done.
Qed.

(** X9: a call of [_process_jobs] on a table without a job in PROCESSING
    leaves no job in PROCESSING, unless the failure of the job it claimed
    could not be recorded: then the table is as the claim left it, and
    the job has attempts left and a date of retry Python cannot hold.
    So at every test of the condition of the loop of [start], for a
    worker that runs alone, the table is one the operations reach and
    every job in PROCESSING has attempts left: a job that succeeded or
    exhausted its attempts is never left in PROCESSING. *)
Theorem worker_loop_leaves_no_job_processing :
  (∀ now_q now_s now_f now_f' run w w',
     Forall (λ job, status job ≠ PROCESSING) (db w) →
     Worker._process_jobs now_q now_s now_f now_f' run w w' →
     Forall (λ job, status job ≠ PROCESSING) (db w') ∨
     ∃ job,
       Worker.claim now_q now_s (db w) (Some job) (db w') ∧
       attempts job < max_attempts job ∧
       ¬ representable now_f' (backoff_base job ^ attempts job * 60)) ∧
  (∀ w w',
     reachable (db w) →
     Forall (λ job, status job = PROCESSING →
                    attempts job < max_attempts job) (db w) →
     Worker.start w w' →
     reachable (db w') ∧
     Forall (λ job, status job = PROCESSING →
                    attempts job < max_attempts job) (db w')).
Proof.
  split.
  - intros now_q now_s now_f now_f' run w w' Hnone
      [Hclaim|job table r w1 Hclaim Hrun]; [by left|].
    rewrite execute_job_run in Hrun.
    destruct (outcome job run now_f now_f') as [e|job'] eqn:Hout;
      injection Hrun as <- <-; cbn [db].
    + right. exists job. split; [done|].
      by apply outcome_inl in Hout as (? & ? & _).
    + left. inversion Hclaim as [|job0 Hsel]; subst.
      rewrite flush_flush by (by eapply outcome_id).
      apply Forall_flush; [|done]. by eapply outcome_not_processing.
  - intros w w' Hreach Hleft Hstart.
    induction Hstart as [w|now_q now_s now_f now_f' run w w1 w2 Hcall _ IH];
      [done|].
    apply IH.
    + eapply reachable_step; [done|]. by eapply process_jobs_steps.
    + destruct Hcall as [Hclaim|job table r w1 Hclaim Hrun]; [done|].
      rewrite execute_job_run in Hrun.
      inversion Hclaim as [|job0 Hsel]; subst.
      destruct (outcome _ run now_f now_f') as [e|job'] eqn:Hout;
        injection Hrun as <- <-; cbn [db].
      * apply Forall_flush; [|done]. intros _.
        by apply outcome_inl in Hout as (? & _).
      * rewrite flush_flush by (by eapply outcome_id).
        apply Forall_flush; [|done]. intros Hs.
        by apply outcome_not_processing in Hout.
Qed.

(** ** Retrying twice *)

(** X10: on a table with a primary key a second [retry_dlq] with the
    same arguments returns or raises what the first did and changes
    nothing; after a first call that returned normally no row is both
    DEAD and selected. *)
Theorem retry_dlq_twice_is_once job_ids retry_all table r1 w1 r2 w2 :
  primary_key table →
  cli.retry_dlq job_ids retry_all (world table) = (r1, w1) →
  cli.retry_dlq job_ids retry_all w1 = (r2, w2) →
  r2 = r1 ∧ w2 = w1 ∧
  (r1 = inr () → Forall (λ job, ¬ retried job_ids retry_all job) (db w1)).
Proof.
  intros Hkey Hrun1 Hrun2. rewrite retry_dlq_run in Hrun1, Hrun2.
  destruct (bool_decide (job_ids = []) && negb retry_all) eqn:Hargs.
  { by simplify_eq/=. }
  destruct (decide (retry_all = true ∨ Forall int64 job_ids)) as [Hfit|Hfit];
    [|by simplify_eq/=].
  injection Hrun1 as <- <-. cbn [db procs world] in *.
  pose proof (flush_all_reset (retried job_ids retry_all) table Hkey) as Heq.
  rewrite !Heq in Hrun2. rewrite Heq. clear Heq.
  set (table1 := (λ job, if decide (retried job_ids retry_all job)
                         then cli.reset_job job else job) <$> table) in *.
  assert (Forall (λ job, ¬ retried job_ids retry_all job) table1) as Hnone.
  { unfold table1. apply Forall_fmap, Forall_forall. intros job _. cbn.
    destruct (decide (retried job_ids retry_all job)) as [Hsel|Hsel]; [|done].
    by intros [Hdead _]. }
  assert (filter (retried job_ids retry_all) table1 = []) as Hfilter.
  { destruct (filter _ table1) as [|job jobs] eqn:Hf; [done|].
    assert (job ∈ filter (retried job_ids retry_all) table1) as Hin
      by (rewrite Hf; left).
    apply list_elem_of_filter in Hin as [Hsel Hin].
    rewrite Forall_forall in Hnone. by destruct (Hnone job Hin). }
  rewrite Hfilter in Hrun2. cbn in Hrun2. by simplify_eq.
Qed.

(** ** Listings *)

Global Instance newest_first_trans : Transitive cli.newest_first.
Proof. intros a b c. unfold cli.newest_first. lia. Qed.

Global Instance newest_first_total : Total cli.newest_first.
Proof. intros a b. unfold cli.newest_first. lia. Qed.

Global Instance last_completed_first_trans :
  Transitive cli.last_completed_first.
Proof.
  intros a b c. unfold cli.last_completed_first.
  destruct (completed_at a), (completed_at b), (completed_at c);
    try done; lia.
Qed.

Global Instance last_completed_first_total : Total cli.last_completed_first.
Proof.
  intros a b. unfold cli.last_completed_first.
  destruct (completed_at a), (completed_at b); auto; lia.
Qed.

(** X11: with a limit that fits 64 bits [list_jobs] returns; with any
    other it raises [OverflowError] and prints no row.  The rows it
    prints are rows of the table with the status asked for, newest first;
    for [limit >= 0] they are [min limit n] of the [n] matching rows, and
    no matching row left out is newer than a printed one; for a negative
    [limit] every matching row is printed. *)
Theorem list_jobs_shows_the_newest status limit table :
  (int64 limit → ∃ jobs, cli.list_jobs status limit table jobs) ∧
  (¬ int64 limit →
     cli.list_jobs_raises status limit table
       (OverflowError "Python int too large to convert to SQLite INTEGER") ∧
     ∀ jobs, ¬ cli.list_jobs status limit table jobs) ∧
  ∀ jobs, cli.list_jobs status limit table jobs →
    let matching :=
      match status with
      | Some s => filter (λ job, models.status job = s) table
      | None => table
      end in
    (∀ job, job ∈ jobs →
       job ∈ table ∧ ∀ s, status = Some s → models.status job = s) ∧
    StronglySorted cli.newest_first jobs ∧
    (0 ≤ limit →
       length jobs = (Z.to_nat limit `min` length matching)%nat) ∧
    (limit < 0 → jobs ≡ₚ matching) ∧
    ∃ rest,
      jobs ++ rest ≡ₚ matching ∧
      ∀ job other, job ∈ jobs → other ∈ rest →
        created_at other ≤ created_at job.
Proof.
  set (matching := match status with
                   | Some s => filter (λ job, models.status job = s) table
                   | None => table
                   end).
  assert (cli.order_by_created_at_desc matching
            (merge_sort cli.newest_first matching)) as Hsort.
  { split; [apply merge_sort_Permutation|apply Sorted_merge_sort, _]. }
  split_and!.
  - intros Hfit. eexists. exists (merge_sort cli.newest_first matching).
    split; [exact Hsort|]. unfold cli.limit. by rewrite decide_True.
  - intros Hfit. split.
    + exists (merge_sort cli.newest_first matching).
      split; [exact Hsort|]. unfold cli.limit. by rewrite decide_False.
    + intros jobs (rows & _ & Heq). unfold cli.limit in Heq.
      by rewrite decide_False in Heq.
  - intros jobs (rows & [Hperm Hsorted] & Heq). cbv zeta. fold matching.
    fold matching in Hperm.
    apply Sorted_StronglySorted in Hsorted; [|apply _].
    assert (∀ job, job ∈ rows →
              job ∈ table ∧ ∀ s, status = Some s → models.status job = s)
      as Hrows.
    { intros job Hjob. rewrite Hperm in Hjob. unfold matching in Hjob.
      destruct status as [s|].
      - apply list_elem_of_filter in Hjob as [Hs Hin].
        split; [done|]. by intros ? [= <-].
      - split; [done|]. by intros. }
    assert (∀ job other, cli.newest_first job other →
              created_at other ≤ created_at job) as Hnewer.
    { intros job other. unfold cli.newest_first. lia. }
    unfold cli.limit in Heq. destruct (decide (int64 limit)); [|done].
    injection Heq as ->. destruct (decide (limit < 0)) as [Hneg|Hpos].
    + split_and!; [done|done|lia|done|].
      exists []. rewrite app_nil_r. split; [done|].
      intros job other _ Hother. by apply elem_of_nil in Hother.
    + rewrite <- (take_drop (Z.to_nat limit) rows) in Hsorted.
      split_and!.
      * intros job Hjob. apply Hrows.
        apply elem_of_take in Hjob as (k & Hk & _).
        by eapply list_elem_of_lookup_2.
      * by eapply StronglySorted_app_1_l.
      * intros _. rewrite length_take. by rewrite Hperm.
      * lia.
      * exists (drop (Z.to_nat limit) rows). rewrite take_drop.
        split; [done|]. intros job other Hjob Hother. apply Hnewer.
        by apply (StronglySorted_app_1_elem_of _ _ _ _ _ Hsorted).
Qed.

Lemma print_dlq_all jobs :
  Forall (λ job, is_Some (completed_at job)) jobs →
  cli.print_dlq jobs = (jobs, None).
Proof.
  induction 1 as [|job jobs [t Ht] _ IH]; [done|].
  cbn. by rewrite Ht, IH.
Qed.

(** X12: on a reachable table [show_dlq] raises nothing and prints
    exactly the rows with status DEAD, each with a [completed_at], the
    last completed first. *)
Theorem show_dlq_lists_the_dead table :
  reachable table →
  (∃ result, cli.show_dlq table result) ∧
  ∀ result, cli.show_dlq table result →
    result.2 = None ∧
    result.1 ≡ₚ filter (λ job, status job = DEAD) table ∧
    StronglySorted cli.last_completed_first result.1 ∧
    Forall (λ job, status job = DEAD ∧ is_Some (completed_at job)) result.1.
Proof.
  intros Hreach.
  pose proof (reachable_job_ok table Hreach) as Hok.
  rewrite Forall_forall in Hok.
  assert (∀ jobs, jobs ≡ₚ filter (λ job, status job = DEAD) table →
            Forall (λ job, status job = DEAD ∧ is_Some (completed_at job)) jobs)
    as Hdead.
  { intros jobs Hperm. apply Forall_forall. intros job Hjob.
    rewrite Hperm in Hjob. apply list_elem_of_filter in Hjob as [Hd Hin].
    split; [done|]. by destruct (Hok job Hin) as (_ & _ & [_ ?] & _). }
  split.
  - eexists _, (merge_sort cli.last_completed_first _). split; [|done]. split.
    + apply merge_sort_Permutation.
    + apply Sorted_merge_sort, _.
  - intros result (jobs & [Hperm Hsorted] & ->).
    specialize (Hdead jobs Hperm).
    rewrite print_dlq_all; [|by eapply Forall_impl; [done|]; intros ? [_ ?]].
    cbn. split_and!; [done|done| |done].
    apply Sorted_StronglySorted; [apply _|done].
Qed.

(** X13: the counts of [status] are one count for each member of
    [JobStatus], each the number of rows with that status, and they add
    up to the number of rows. *)
Theorem status_counts_every_job_once table :
  sum_list (cli.status_counts table).*2 = length table ∧
  (cli.status_counts table).*1 = [PENDING; PROCESSING; COMPLETED; FAILED; DEAD] ∧
  ∀ s n, (s, n) ∈ cli.status_counts table →
    n = length (filter (λ job, status job = s) table).
Proof.
  split_and!.
  - unfold cli.status_counts. cbn [fmap list_fmap snd sum_list sum_list_with].
    induction table as [|job table IH]; [done|].
    unfold Datatypes.id in *. rewrite !filter_cons. cbn [length].
    rewrite <- IH.
    destruct (status job); repeat case_decide; try done; cbn [length]; lia.
  - reflexivity.
  - intros s n Hin. unfold cli.status_counts in Hin.
    apply list_elem_of_fmap in Hin as (s' & [= -> ->] & _). done.
Qed.

Lemma reachable_never_failed table :
  reachable table → Forall (λ job, status job ≠ FAILED) table.
Proof. apply reachable_Forall; done. Qed.

(** X14: no operation gives a job the status FAILED: in a reachable
    table no row has it, its count in [status] is 0 and
    [list_jobs] with [--status failed] prints no row. *)
Theorem status_failed_is_never_used table :
  reachable table →
  (∀ job, job ∈ table → status job ≠ FAILED) ∧
  (FAILED, 0%nat) ∈ cli.status_counts table ∧
  ∀ limit jobs, cli.list_jobs (Some FAILED) limit table jobs → jobs = [].
Proof.
  intros Hreach. pose proof (reachable_never_failed table Hreach) as Hnever.
  assert (filter (λ job, status job = FAILED) table = []) as Hnone.
  { destruct (filter _ table) as [|job rest] eqn:Hf; [done|].
    assert (job ∈ filter (λ job, status job = FAILED) table) as Hin
      by (rewrite Hf; left).
    apply list_elem_of_filter in Hin as [Hs Hin].
    rewrite Forall_forall in Hnever. by destruct (Hnever job Hin). }
  split_and!.
  - by apply Forall_forall.
  - unfold cli.status_counts. apply list_elem_of_fmap. exists FAILED.
    rewrite Hnone. split; [done|]. set_solver.
  - intros limit jobs (rows & [Hperm _] & Heq). cbn in Hperm.
    rewrite Hnone in Hperm. apply Permutation_nil_r in Hperm. subst rows.
    unfold cli.limit in Heq. destruct (decide (int64 limit)); [|done].
    injection Heq as ->. destruct (decide _); [done|]. by rewrite take_nil.
Qed.

(** ** The configuration *)

Lemma config_set_positive int key value file :
  positive_settings (cli.get_config file) →
  positive_settings
    (cli.get_config (cli.config_file_after int file (key, value))).
Proof.
  intros Hpos. unfold cli.config_file_after, cli.config_set. cbn [fst snd].
  destruct (decide (key ∈ _)) as [_|_]; [|done].
  destruct (decide (key ∈ _)) as [_|_].
  - destruct (int value) as [msg|n]; [done|].
    destruct (decide (n ≤ 0)) as [|Hn]; [done|].
    cbn [cli.get_config]. destruct Hpos as (H1 & H2 & H3).
    unfold positive_settings, cli.set_int.
    repeat (destruct (decide _)); cbn; split_and!; lia.
  - cbn [cli.get_config]. by destruct Hpos as (H1 & H2 & H3).
Qed.

(** X15: [config_set] keeps the settings positive.  A call on a file
    whose [max_retries], [backoff_base] and [default_workers] are at
    least 1 saves a file of that kind or raises and saves nothing; so,
    with no configuration file at the start, after any calls of
    [config_set], accepted or not, the three settings [get_config]
    returns are at least 1.  (A call that the callback of the group stops
    before [config_set] runs leaves the file as it is: the calls that ran
    are again a sequence of calls.) *)
Theorem settings_stay_positive_under_config_set int :
  (∀ key value file config,
     positive_settings (cli.get_config file) →
     cli.config_set int key value file = inr config →
     positive_settings config) ∧
  ∀ calls,
    positive_settings
      (cli.get_config (foldl (cli.config_file_after int) None calls)).
Proof.
  split.
  - intros key value file config Hpos Hset.
    pose proof (config_set_positive int key value file Hpos) as Hafter.
    unfold cli.config_file_after in Hafter. cbn [fst snd] in Hafter.
    by rewrite Hset in Hafter.
  - intros calls.
    assert (∀ file, positive_settings (cli.get_config file) →
              positive_settings
                (cli.get_config (foldl (cli.config_file_after int) file calls)))
      as Hfold.
    { induction calls as [|[key value] calls IH]; intros file Hfile; [done|].
      cbn [foldl]. apply IH. by apply config_set_positive. }
    apply Hfold. cbn. unfold positive_settings. cbn. lia.
Qed.

(** ** Starting the workers *)

Lemma construct_workers_all indices ev :
  Worker.construct_workers indices ev =
  inr ((λ i, {| Worker.worker_id := i + 1; Worker.max_jobs := 10;
                Worker.shutdown_event := ev; Worker.current_job := None;
                Worker.running := false |}) <$> indices).
Proof.
  induction indices as [|i indices IH]; [done|].
  cbn [Worker.construct_workers]. rewrite IH. reflexivity.
Qed.

(** X16: [start_workers_cmd] raises nothing while it builds its workers:
    it constructs [count or default_workers] of them, none for a
    negative count, with ids 1, 2, ..., [max_jobs] 10, not running, all
    on one event that is not set; a count of 0 or none takes
    [default_workers]. *)
Theorem start_workers_cmd_builds_the_workers config count :
  ∃ workers,
    cli.start_workers_cmd config count = inr workers ∧
    length workers =
      Z.to_nat (py_or count (cli.default_workers config)) ∧
    (∀ i worker, workers !! i = Some worker →
       Worker.worker_id worker = Z.of_nat i + 1 ∧
       Worker.max_jobs worker = 10 ∧
       Worker.shutdown_event worker = {| Worker.is_set := false |} ∧
       Worker.running worker = false) ∧
    (count = None ∨ count = Some 0 →
       length workers = Z.to_nat (cli.default_workers config)) ∧
    (∀ v, v < 0 → count = Some v → workers = []).
Proof.
  unfold cli.start_workers_cmd, Worker.start_workers.
  rewrite construct_workers_all. eexists. split; [reflexivity|].
  split_and!.
  - by rewrite length_fmap, length_seqZ.
  - intros i worker Hw. rewrite list_lookup_fmap in Hw.
    destruct (seqZ 0 _ !! i) as [k|] eqn:Hk; simplify_eq/=.
    apply lookup_seqZ in Hk as [-> _]. split_and!; done || lia.
  - intros [->| ->]; by rewrite length_fmap, length_seqZ.
  - intros v Hv ->. unfold py_or. rewrite decide_False by lia.
    by rewrite seqZ_nil by lia.
Qed.

(** ** Submission and claim *)


(** ** Examples *)

Lemma completed_reachable : reachable [completed_job].
Proof.
  eapply reachable_step; [apply sample_claimed_reachable|]. apply rtc_once.
  apply (step_outcome_table (Worker.mark_processing 2000 sample_job)
           (Exits "" "" 0) 3000 3000
           [Worker.mark_processing 2000 sample_job] completed_job).
  - apply list_elem_of_singleton. reflexivity.
  - reflexivity.
  - reflexivity.
Qed.

Lemma completed_next_step :
  step [completed_job] [completed_job; new_job 2 "echo hi" 3 2 4000].
Proof.
  apply (step_add_table cli.DEFAULT_CONFIG "echo hi" None None 4000
           [completed_job]); apply (bool_decide_unpack _); vm_compute; exact I.
Qed.

Lemma died_retry_step : step [died_job] [cli.reset_job died_job].
Proof.
  eapply (step_retry [] true [died_job] (inr ()) (world _)). reflexivity.
Qed.

Lemma sample_worker_run :
  Worker.start (world [sample_job])
    {| db := [retried_job]; procs := [Spawn "exit 1"] |}.
Proof.
  eapply (Worker.start_iterate 2000 2000 3000 3000 (Exits "" "boom" 1));
    [|apply Worker.start_leave].
  eapply Worker.process_job.
  - apply (Worker.claim_job 2000 2000 [sample_job] sample_job).
    by apply select_pending_singleton.
  - reflexivity.
Qed.

Lemma huge_process_jobs :
  Worker._process_jobs 63929304001000000 63929304001000000
    63929304002000000 63929304002000000 (Exits "" "" 1)
    (world [huge_job])
    {| db := [huge_claimed]; procs := [Spawn "exit 1"] |}.
Proof.
  eapply Worker.process_job.
  - apply (Worker.claim_job 63929304001000000 63929304001000000
             [huge_job] huge_job).
    by apply select_pending_singleton.
  - reflexivity.
Qed.

Lemma newest_listing :
  cli.list_jobs None 1 [completed_job; fresh_job] [fresh_job].
Proof.
  exists [fresh_job; completed_job].
  split; [|reflexivity]. split; [apply perm_swap|].
  apply Sorted_cons; [apply Sorted_cons; [apply Sorted_nil|apply HdRel_nil]|].
  apply HdRel_cons. unfold cli.newest_first. cbn. lia.
Qed.

Lemma died_listing : cli.show_dlq [died_job] ([died_job], None).
Proof.
  exists [died_job]. split; [|reflexivity].
  split; [reflexivity|].
  apply Sorted_cons; [apply Sorted_nil|apply HdRel_nil].
Qed.

(** ** The properties at the examples *)

Lemma status_follows_state_machine_witness :
  reachable [sample_job] ∧
  step [sample_job] [Worker.mark_processing 2000 sample_job] ∧
  ∃ job',
    [Worker.mark_processing 2000 sample_job] !! 0%nat = Some job' ∧
    status_transition (status sample_job) (status job').
Proof.
  split; [apply sample_reachable|]. split; [apply sample_claim_step|].
  apply (status_follows_state_machine [sample_job]
           [Worker.mark_processing 2000 sample_job]
           sample_reachable sample_claim_step 0%nat sample_job).
  reflexivity.
Defined.

Lemma rows_keep_their_identity_witness :
  reachable [sample_job] ∧
  ∃ job',
    [Worker.mark_processing 2000 sample_job] !! 0%nat = Some job' ∧
    same_identity sample_job job'.
Proof.
  split; [apply sample_reachable|].
  apply (rows_keep_their_identity [sample_job]
           [Worker.mark_processing 2000 sample_job]
           sample_reachable (rtc_once _ _ sample_claim_step) 0%nat sample_job).
  reflexivity.
Defined.

Lemma completed_rows_never_change_witness :
  reachable [completed_job] ∧ status completed_job = COMPLETED ∧
  [completed_job; new_job 2 "echo hi" 3 2 4000] !! 0%nat = Some completed_job.
Proof.
  split; [apply completed_reachable|]. split; [reflexivity|].
  apply (completed_rows_never_change [completed_job]
           [completed_job; new_job 2 "echo hi" 3 2 4000]
           completed_reachable (rtc_once _ _ completed_next_step)
           0%nat completed_job); reflexivity.
Defined.

Lemma dead_rows_change_only_by_reset_witness :
  reachable [died_job] ∧ status died_job = DEAD ∧
  ([cli.reset_job died_job] !! 0%nat = Some died_job ∨
   [cli.reset_job died_job] !! 0%nat = Some (cli.reset_job died_job)).
Proof.
  split; [apply died_job_reachable|]. split; [reflexivity|].
  apply (dead_rows_change_only_by_reset [died_job] [cli.reset_job died_job]
           died_job_reachable died_retry_step 0%nat died_job); reflexivity.
Defined.

Lemma attempts_never_exceed_the_limit_witness :
  reachable [died_job] ∧ 1 ≤ max_attempts died_job ∧
  0 ≤ attempts died_job ≤ max_attempts died_job.
Proof.
  split; [apply died_job_reachable|].
  assert (1 ≤ max_attempts died_job) as Hmax by (vm_compute; discriminate).
  split; [exact Hmax|].
  destruct (attempts_never_exceed_the_limit [died_job] died_job) as [Hpos _].
  - apply died_job_reachable.
  - apply list_elem_of_singleton. reflexivity.
  - destruct (Hpos Hmax) as [Hbound _]. exact Hbound.
Defined.

Lemma ids_count_the_submissions_witness :
  reachable [tie_first; tie_second] ∧ id tie_second = Z.of_nat 1 + 1.
Proof.
  split; [apply tie_table_reachable|].
  apply (ids_count_the_submissions [tie_first; tie_second]
           tie_table_reachable 1%nat tie_second).
  reflexivity.
Defined.

Lemma failed_job_waits_for_its_backoff_witness :
  0 ≤ attempts (Worker.mark_processing 2000 sample_job) ∧
  attempts (Worker.mark_processing 2000 sample_job) <
    max_attempts (Worker.mark_processing 2000 sample_job) ∧
  representable 3000 (2 ^ 1 * 60) ∧
  ∃ job' retry_at,
    Worker._handle_failure (Worker.mark_processing 2000 sample_job) "boom"
      3000 (world [Worker.mark_processing 2000 sample_job]) =
      (inr job', world (flush job' [Worker.mark_processing 2000 sample_job])) ∧
    retry_at = 3000 + seconds (2 ^ 1 * 60) ∧
    Worker.eligible 3000 job' = bool_decide (retry_at ≤ 3000).
Proof.
  assert (attempts (Worker.mark_processing 2000 sample_job) <
            max_attempts (Worker.mark_processing 2000 sample_job)) as Hless.
  { vm_compute. reflexivity. }
  assert (0 ≤ attempts (Worker.mark_processing 2000 sample_job)) as Hpos.
  { vm_compute. discriminate. }
  assert (representable 3000 (2 ^ 1 * 60)) as Hrep.
  { apply (bool_decide_unpack _). vm_compute. exact I. }
  split; [exact Hpos|]. split; [exact Hless|]. split; [exact Hrep|].
  destruct (failed_job_waits_for_its_backoff
              [Worker.mark_processing 2000 sample_job]
              (Worker.mark_processing 2000 sample_job) "boom" 3000
              Hpos Hless Hrep)
    as (job' & retry_at & Hrun & Hat & Helig & _).
  exists job', retry_at. split; [exact Hrun|]. split; [exact Hat|].
  apply Helig.
Defined.

Lemma success_keeps_the_last_error_witness :
  0 ≤ attempts sample_job ∧
  attempts sample_job + 1 < max_attempts sample_job ∧
  representable 3000 (2 ^ (0 + 1) * 60) ∧
  ∃ job1 job2 w',
    (job1 ← failing_attempt 2000 3000 "boom" sample_job;
     job2 ← (let job := Worker.mark_processing 4000 job1 in
             session_commit job;;
             Worker._execute_job job (Exits "hi" "" 0) 5000 5000);
     mret (job1, job2)) (world [sample_job]) = (inr (job1, job2), w') ∧
    status job2 = COMPLETED ∧ error job2 = Some "boom"%string.
Proof.
  assert (attempts sample_job + 1 < max_attempts sample_job) as Hless.
  { vm_compute. reflexivity. }
  assert (0 ≤ attempts sample_job) as Hpos.
  { vm_compute. discriminate. }
  assert (representable 3000 (2 ^ (0 + 1) * 60)) as Hrep.
  { apply (bool_decide_unpack _). vm_compute. exact I. }
  split; [exact Hpos|]. split; [exact Hless|]. split; [exact Hrep|].
  destruct (success_keeps_the_last_error sample_job 2000 3000 "boom" 4000
              "hi" "" 5000 5000 (world [sample_job]) Hpos Hless Hrep)
    as (job1 & job2 & w' & Hrun & _ & Hstatus & _ & _ & Herror & _).
  exists job1, job2, w'. split; [exact Hrun|]. split; [exact Hstatus|].
  exact Herror.
Defined.

Lemma worker_loop_leaves_no_job_processing_witness :
  (Worker.start (world [sample_job])
     {| db := [retried_job]; procs := [Spawn "exit 1"] |} ∧
   reachable [retried_job] ∧
   status retried_job = PENDING) ∧
  (Forall (λ job, status job ≠ PROCESSING) [huge_claimed] ∨
   ∃ job,
     Worker.claim 63929304001000000 63929304001000000 [huge_job]
       (Some job) [huge_claimed] ∧
     attempts job < max_attempts job ∧
     ¬ representable 63929304002000000
         (backoff_base job ^ attempts job * 60)).
Proof.
  destruct worker_loop_leaves_no_job_processing as [Hcall Hloop].
  split.
  - split; [apply sample_worker_run|].
    destruct (Hloop (world [sample_job])
                {| db := [retried_job]; procs := [Spawn "exit 1"] |})
      as [Hreach _].
    + apply sample_reachable.
    + apply Forall_cons. split; [|apply Forall_nil_2].
      intros _. vm_compute. reflexivity.
    + apply sample_worker_run.
    + split; [exact Hreach|reflexivity].
  - apply (Hcall 63929304001000000 63929304001000000
             63929304002000000 63929304002000000 (Exits "" "" 1)
             (world [huge_job])
             {| db := [huge_claimed]; procs := [Spawn "exit 1"] |}).
    + apply Forall_cons. split; [discriminate|apply Forall_nil_2].
    + apply huge_process_jobs.
Defined.

Lemma retry_dlq_twice_is_once_witness :
  primary_key [dead_job; done_job] ∧
  let '(r1, w1) := cli.retry_dlq [1; 2] false (world [dead_job; done_job]) in
  cli.retry_dlq [1; 2] false w1 = (r1, w1).
Proof.
  assert (primary_key [dead_job; done_job]) as Hkey.
  { apply (bool_decide_unpack _). vm_compute. exact I. }
  split; [exact Hkey|].
  destruct (cli.retry_dlq [1; 2] false (world [dead_job; done_job]))
    as [r1 w1] eqn:Hrun1.
  destruct (cli.retry_dlq [1; 2] false w1) as [r2 w2] eqn:Hrun2.
  destruct (retry_dlq_twice_is_once [1; 2] false [dead_job; done_job]
              r1 w1 r2 w2 Hkey Hrun1 Hrun2) as (Hr & Hw & _).
  rewrite Hr, Hw. reflexivity.
Defined.

Lemma list_jobs_shows_the_newest_witness :
  cli.list_jobs None 1 [completed_job; fresh_job] [fresh_job] ∧
  length [fresh_job] =
    (Z.to_nat 1 `min` length [completed_job; fresh_job])%nat ∧
  cli.list_jobs_raises None 9223372036854775808 [completed_job; fresh_job]
    (OverflowError "Python int too large to convert to SQLite INTEGER").
Proof.
  split; [apply newest_listing|]. split.
  - destruct (list_jobs_shows_the_newest None 1 [completed_job; fresh_job])
      as (_ & _ & Hall).
    destruct (Hall [fresh_job] newest_listing) as (_ & _ & Hlength & _).
    apply Hlength. vm_compute. discriminate.
  - destruct (list_jobs_shows_the_newest None 9223372036854775808
                [completed_job; fresh_job]) as (_ & Hraise & _).
    apply Hraise. unfold int64. lia.
Defined.

Lemma show_dlq_lists_the_dead_witness :
  reachable [died_job] ∧ cli.show_dlq [died_job] ([died_job], None) ∧
  ([died_job], @None exn).2 = None.
Proof.
  split; [apply died_job_reachable|]. split; [apply died_listing|].
  destruct (show_dlq_lists_the_dead [died_job] died_job_reachable)
    as [_ Hall].
  destruct (Hall ([died_job], None) died_listing) as (Hnone & _).
  exact Hnone.
Defined.

Lemma status_failed_is_never_used_witness :
  reachable [tie_first; tie_second] ∧
  (FAILED, 0%nat) ∈ cli.status_counts [tie_first; tie_second].
Proof.
  split; [apply tie_table_reachable|].
  destruct (status_failed_is_never_used [tie_first; tie_second]
              tie_table_reachable) as (_ & Hcount & _).
  exact Hcount.
Defined.

Lemma settings_stay_positive_under_config_set_witness :
  positive_settings
    (cli.get_config
       (foldl (cli.config_file_after int_of_example) None
          [("max_retries", "5"); ("backoff_base", "0");
           ("default_workers", "-2"); ("workers", "5");
           ("backoff_base", "many")]%string)) ∧
  cli.max_retries
    (cli.get_config
       (foldl (cli.config_file_after int_of_example) None
          [("max_retries", "5"); ("backoff_base", "0");
           ("default_workers", "-2"); ("workers", "5");
           ("backoff_base", "many")]%string)) = 5.
Proof.
  split; [|reflexivity].
  destruct (settings_stay_positive_under_config_set int_of_example)
    as [_ Hcalls].
  apply Hcalls.
Defined.

Lemma start_workers_cmd_builds_the_workers_witness :
  ∃ workers,
    cli.start_workers_cmd cli.DEFAULT_CONFIG (Some (-3)) = inr workers ∧
    workers = [].
Proof.
  destruct (start_workers_cmd_builds_the_workers cli.DEFAULT_CONFIG
              (Some (-3))) as (workers & Hrun & _ & _ & _ & Hnone).
  exists workers. split; [exact Hrun|].
  apply (Hnone (-3)); reflexivity.
Defined.

